(** * The LocalWorkers pool of amboy (pool/local.go)

    A shallow embedding of [vendor/github.com/mongodb/amboy/pool/local.go]:
    the pool record and its methods as functions over an explicit runtime
    state, the dispatcher goroutine of [startWorkerServer] and the [worker]
    goroutines as a labelled small-step semantics over a list of goroutines
    that share an unbuffered channel, cancellation flags and the external
    queue/job state. *)

From Stdlib Require Import ZArith Lia Bool List String.
From stdpp Require Import base list.
Import ListNotations.

Local Open Scope nat_scope.

(** ** Data model *)

(** An [amboy.Job] value is known to the pool by identity only. *)
Definition Job := nat.

(** A non-nil [amboy.Queue] interface value; the nil queue is [None]. *)
Definition QueueRef := nat.

(** Channels made by [make(chan amboy.Job)], numbered in allocation order. *)
Definition ChanId := nat.

(** A [context.Context].  [context.WithCancel parent] makes a child that is
    done as soon as its own flag is set or its parent is done; the flags
    live in the runtime state and the [context.CancelFunc] of the child is
    the index of its flag. *)
Inductive Ctx : Type :=
| CtxBackground
| CtxCancel (parent : Ctx) (flag : nat).

Definition CancelFunc := nat.

Fixpoint ctx_done (c : Ctx) (flags : list bool) : bool :=
  match c with
  | CtxBackground => false
  | CtxCancel p k => default false (flags !! k) || ctx_done p flags
  end.

(** Every flag of a context has been allocated. *)
Fixpoint ctx_wf (c : Ctx) (flags : list bool) : bool :=
  match c with
  | CtxBackground => true
  | CtxCancel p k => (k <? length flags) && ctx_wf p flags
  end.

(** The messages handed to grip. *)
Inductive LogMsg : Type :=
| LogMinimalSize (n : Z)            (* "setting minimal pool size is 1, overriding setting of '%d'" *)
| LogJobCompleted (j : Job)         (* "job '%s' was dispatched from the queue but was completed" *)
| LogRunning (n : Z)                (* "running %d workers" *)
| LogStartedWorker (w n : Z).       (* "started worker %d of %d waiting for jobs" *)

(** What an execution does that an observer outside the pool can see. *)
Inductive Event : Type :=
| EvLog (m : LogMsg)
| EvNext (c : Ctx) (q : QueueRef) (o : option Job)   (* q.Next(c) returned o *)
| EvHandoff (ch : ChanId) (j : Job)                  (* a send of j on ch met a receive *)
| EvRun (j : Job)                                    (* j.Run() was executed *)
| EvComplete (c : Ctx) (q : QueueRef) (j : Job)      (* q.Complete(c, j) *)
| EvCancel (k : CancelFunc).                         (* the cancel function k was called *)

(** Program points of the goroutine of [startWorkerServer]. *)
Inductive DispPC : Type :=
| DSelect                (* at the select of the for loop *)
| DNext                  (* default branch taken, calling q.Next(ctx) *)
| DCheck (j : Job)       (* Next returned the non-nil j, reading its status *)
| DSend (j : Job)        (* blocked in output <- j *)
| DExit.                 (* returned *)

(** Program points of [worker]. *)
Inductive WorkPC : Type :=
| WSelect                (* at the select of the for loop *)
| WRun (j : Job)         (* j received, executing j.Run() *)
| WComplete (j : Job)    (* Run returned, calling q.Complete(ctx, j) *)
| WExit.                 (* returned *)

Inductive Goroutine : Type :=
| GDispatcher (ctx : Ctx) (q : QueueRef) (out : ChanId) (pc : DispPC)
| GWorker (ctx : Ctx) (jobs : ChanId) (q : QueueRef) (pc : WorkPC).

(** The struct [LocalWorkers].  [size] is a Go int; the code only compares
    and prints it, so no wrap-around is involved. *)
Record LocalWorkers : Type := mkLocalWorkers {
  size : Z;
  started : bool;
  queue : option QueueRef;
  canceler : option CancelFunc
}.

Definition ErrStarted : string := "cannot add new queue after starting a runner".
Definition ErrNoQueue : string := "runner must have an embedded queue".

(** The operations of the interfaces [amboy.Queue] and [amboy.Job] the pool
    calls, over the state [World] of these collaborators.  The boolean
    handed to the queue says whether the context it receives is done.
    [q_next] answers [None] while the call does not return. *)
Class Collaborators (World : Type) : Type := {
  q_next : QueueRef -> bool -> World -> option (option Job * World);
  q_complete : QueueRef -> bool -> Job -> World -> World;
  job_run : Job -> World -> World;
  job_completed : Job -> World -> bool
}.

(** What the methods of the pool act on besides the struct itself. *)
Record Runtime (World : Type) : Type := mkRuntime {
  flags : list bool;            (* cancellation flags, by CancelFunc *)
  nchans : nat;                 (* channels allocated so far *)
  threads : list Goroutine;     (* goroutines, in spawning order *)
  world : World;
  trace : list Event            (* newest event first *)
}.

Arguments mkRuntime {World}.
Arguments flags {World}.
Arguments nchans {World}.
Arguments threads {World}.
Arguments world {World}.
Arguments trace {World}.

Section Controller.
Context {World : Type}.

Definition set_flags (f : list bool) (rt : Runtime World) : Runtime World :=
  mkRuntime f (nchans rt) (threads rt) (world rt) (trace rt).
Definition set_nchans (n : nat) (rt : Runtime World) : Runtime World :=
  mkRuntime (flags rt) n (threads rt) (world rt) (trace rt).
Definition set_threads (ts : list Goroutine) (rt : Runtime World) : Runtime World :=
  mkRuntime (flags rt) (nchans rt) ts (world rt) (trace rt).
Definition set_world (w : World) (rt : Runtime World) : Runtime World :=
  mkRuntime (flags rt) (nchans rt) (threads rt) w (trace rt).
Definition emit (e : Event) (rt : Runtime World) : Runtime World :=
  mkRuntime (flags rt) (nchans rt) (threads rt) (world rt) (e :: trace rt).
Definition spawn (g : Goroutine) (rt : Runtime World) : Runtime World :=
  set_threads (threads rt ++ [g]) rt.

(** ** The pool controller *)

Definition NewLocalWorkers (numWorkers : Z) (q : option QueueRef) (rt : Runtime World)
  : LocalWorkers * Runtime World :=
  let r := mkLocalWorkers numWorkers false q None in
  if (size r <=? 0)%Z
  then (mkLocalWorkers 1%Z (started r) (queue r) (canceler r),
        emit (EvLog (LogMinimalSize (size r))) rt)
  else (r, rt).

Definition SetQueue (q : option QueueRef) (r : LocalWorkers)
  : option string * LocalWorkers :=
  if started r then (Some ErrStarted, r)
  else (None, mkLocalWorkers (size r) (started r) q (canceler r)).

Definition Started (r : LocalWorkers) : bool := started r.

(** [startWorkerServer]: makes the channel, starts the dispatcher goroutine
    and returns the channel. *)
Definition startWorkerServer (ctx : Ctx) (q : QueueRef) (rt : Runtime World)
  : ChanId * Runtime World :=
  let output := nchans rt in
  (output, spawn (GDispatcher ctx q output DSelect) (set_nchans (S output) rt)).

(** The loop [for w := 1; w <= r.size; w++] of Start, with [n] iterations
    left to run. *)
Fixpoint start_workers (n : nat) (w : Z) (sz : Z) (ctx : Ctx) (jobs : ChanId)
    (q : QueueRef) (rt : Runtime World) : Runtime World :=
  match n with
  | O => rt
  | S n' =>
      start_workers n' (w + 1)%Z sz ctx jobs q
        (emit (EvLog (LogStartedWorker w sz)) (spawn (GWorker ctx jobs q WSelect) rt))
  end.

(** [Start].  The closures of the workers read [r.queue] when they first
    run; by then [started] is set and SetQueue refuses to change the field,
    so it is the queue read here. *)
Definition Start (ctx : Ctx) (r : LocalWorkers) (rt : Runtime World)
  : option string * LocalWorkers * Runtime World :=
  if started r then (None, r, rt)
  else match queue r with
  | None => (Some ErrNoQueue, r, rt)
  | Some q =>
      let cancel := length (flags rt) in
      let workerCtx := CtxCancel ctx cancel in
      let rt := set_flags (flags rt ++ [false]) rt in
      let r := mkLocalWorkers (size r) (started r) (queue r) (Some cancel) in
      let '(jobs, rt) := startWorkerServer workerCtx q rt in
      let r := mkLocalWorkers (size r) true (queue r) (canceler r) in
      let rt := emit (EvLog (LogRunning (size r))) rt in
      let rt := start_workers (Z.to_nat (size r)) 1%Z (size r) workerCtx jobs q rt in
      (None, r, rt)
  end.

Definition Close (r : LocalWorkers) (rt : Runtime World) : LocalWorkers * Runtime World :=
  match canceler r with
  | Some cancel => (r, emit (EvCancel cancel) (set_flags (<[cancel := true]> (flags rt)) rt))
  | None => (r, rt)
  end.

End Controller.

(** ** The goroutines *)

Section Goroutines.
Context {World : Type} `{!Collaborators World}.

Definition set_thread (i : nat) (g : Goroutine) (rt : Runtime World) : Runtime World :=
  set_threads (<[i := g]> (threads rt)) rt.

(** One step of the goroutine started by [startWorkerServer], running as
    thread [i].  The select has a default branch, so it takes the Done case
    exactly when the context is done.  A dispatcher in [DSend] cannot move
    by itself: the send needs a receiver (see [handoff]). *)
Definition dispatcher_step (i : nat) (ctx : Ctx) (q : QueueRef) (out : ChanId)
    (pc : DispPC) (rt : Runtime World) : option (Runtime World) :=
  match pc with
  | DSelect =>
      if ctx_done ctx (flags rt)
      then Some (set_thread i (GDispatcher ctx q out DExit) rt)
      else Some (set_thread i (GDispatcher ctx q out DNext) rt)
  | DNext =>
      match q_next q (ctx_done ctx (flags rt)) (world rt) with
      | None => None
      | Some (None, w') =>
          Some (set_thread i (GDispatcher ctx q out DSelect)
                  (emit (EvNext ctx q None) (set_world w' rt)))
      | Some (Some job, w') =>
          Some (set_thread i (GDispatcher ctx q out (DCheck job))
                  (emit (EvNext ctx q (Some job)) (set_world w' rt)))
      end
  | DCheck job =>
      if job_completed job (world rt)
      then Some (set_thread i (GDispatcher ctx q out DSelect)
                   (emit (EvLog (LogJobCompleted job)) rt))
      else Some (set_thread i (GDispatcher ctx q out (DSend job)) rt)
  | DSend _ => None
  | DExit => None
  end.

(** One step of [worker] running as thread [i].  At the select the worker
    can return once the context is done; receiving a job is [handoff]. *)
Definition worker_step (i : nat) (ctx : Ctx) (jobs : ChanId) (q : QueueRef)
    (pc : WorkPC) (rt : Runtime World) : option (Runtime World) :=
  match pc with
  | WSelect =>
      if ctx_done ctx (flags rt)
      then Some (set_thread i (GWorker ctx jobs q WExit) rt)
      else None
  | WRun job =>
      Some (set_thread i (GWorker ctx jobs q (WComplete job))
              (emit (EvRun job) (set_world (job_run job (world rt)) rt)))
  | WComplete job =>
      Some (set_thread i (GWorker ctx jobs q WSelect)
              (emit (EvComplete ctx q job)
                 (set_world (q_complete q (ctx_done ctx (flags rt)) job (world rt)) rt)))
  | WExit => None
  end.

Definition go_step (i : nat) (rt : Runtime World) : option (Runtime World) :=
  match threads rt !! i with
  | Some (GDispatcher ctx q out pc) => dispatcher_step i ctx q out pc rt
  | Some (GWorker ctx jobs q pc) => worker_step i ctx jobs q pc rt
  | None => None
  end.

(** The unbuffered channel: the send [output <- job] of dispatcher [d] and
    the receive [job := <-jobs] of worker [w] happen together, and only on
    the same channel. *)
Definition handoff (d w : nat) (rt : Runtime World) : option (Runtime World) :=
  match threads rt !! d, threads rt !! w with
  | Some (GDispatcher ctx q out (DSend job)), Some (GWorker ctx' jobs q' WSelect) =>
      if out =? jobs
      then Some (emit (EvHandoff out job)
                   (set_thread d (GDispatcher ctx q out DSelect)
                      (set_thread w (GWorker ctx' jobs q' (WRun job)) rt)))
      else None
  | _, _ => None
  end.

(** ** The pool and its goroutines together *)

Record System : Type := mkSystem {
  pool : LocalWorkers;
  rt : Runtime World
}.

(** What can happen next.  The calls of the owner are taken one at a time
    and as a whole: local.go has no lock, and callers are expected not to
    race on a pool. *)
Inductive Label : Type :=
| LSetQueue (q : option QueueRef)   (* the owner calls r.SetQueue(q) *)
| LStart (ctx : Ctx)                (* the owner calls r.Start(ctx) *)
| LClose                            (* the owner calls r.Close() *)
| LEnvWithCancel                    (* somebody else makes a cancellable context *)
| LEnvCancel (k : CancelFunc)       (* somebody else cancels a context of theirs *)
| LGo (i : nat)                     (* goroutine i runs to its next program point *)
| LHandoff (d w : nat).             (* dispatcher d hands its job to worker w *)

Definition step (l : Label) (s : System) : option System :=
  match l with
  | LSetQueue q => Some (mkSystem (snd (SetQueue q (pool s))) (rt s))
  | LStart ctx =>
      if ctx_wf ctx (flags (rt s))
      then let '(_, r, rt') := Start ctx (pool s) (rt s) in Some (mkSystem r rt')
      else None
  | LClose => let '(r, rt') := Close (pool s) (rt s) in Some (mkSystem r rt')
  | LEnvWithCancel =>
      Some (mkSystem (pool s) (set_flags (flags (rt s) ++ [false]) (rt s)))
  | LEnvCancel k =>
      match canceler (pool s) with
      | Some cancel =>
          if k =? cancel then None
          else Some (mkSystem (pool s) (set_flags (<[k := true]> (flags (rt s))) (rt s)))
      | None => Some (mkSystem (pool s) (set_flags (<[k := true]> (flags (rt s))) (rt s)))
      end
  | LGo i => option_map (mkSystem (pool s)) (go_step i (rt s))
  | LHandoff d w => option_map (mkSystem (pool s)) (handoff d w (rt s))
  end.

Fixpoint exec (ls : list Label) (s : System) : option System :=
  match ls with
  | [] => Some s
  | l :: ls' =>
      match step l s with
      | Some s' => exec ls' s'
      | None => None
      end
  end.

Definition reachable (s0 s : System) : Prop :=
  exists ls, exec ls s0 = Some s.

End Goroutines.

Arguments System World : clear implicits.

(** ** Counting *)

Definition b2n (b : bool) : nat := if b then 1 else 0.

Fixpoint tally {A : Type} (p : A -> bool) (l : list A) : nat :=
  match l with
  | [] => 0
  | x :: l' => b2n (p x) + tally p l'
  end.

(** Goroutines busy with job [j], by program point. *)
Definition checking (j : Job) (g : Goroutine) : bool :=
  match g with GDispatcher _ _ _ (DCheck j') => j =? j' | _ => false end.
Definition sending (j : Job) (g : Goroutine) : bool :=
  match g with GDispatcher _ _ _ (DSend j') => j =? j' | _ => false end.
Definition running (j : Job) (g : Goroutine) : bool :=
  match g with GWorker _ _ _ (WRun j') => j =? j' | _ => false end.
Definition reporting (j : Job) (g : Goroutine) : bool :=
  match g with GWorker _ _ _ (WComplete j') => j =? j' | _ => false end.

(** Events about job [j], by kind. *)
Definition yielded (j : Job) (e : Event) : bool :=
  match e with EvNext _ _ (Some j') => j =? j' | _ => false end.
Definition skipped (j : Job) (e : Event) : bool :=
  match e with EvLog (LogJobCompleted j') => j =? j' | _ => false end.
Definition handed (j : Job) (e : Event) : bool :=
  match e with EvHandoff _ j' => j =? j' | _ => false end.
Definition ran (j : Job) (e : Event) : bool :=
  match e with EvRun j' => j =? j' | _ => false end.
Definition completed (j : Job) (e : Event) : bool :=
  match e with EvComplete _ _ j' => j =? j' | _ => false end.
Definition cancelled_by (k : CancelFunc) (e : Event) : bool :=
  match e with EvCancel k' => k =? k' | _ => false end.

(** The books of job [j] balance: every yield of the queue is accounted for
    by a pending status check, a skip, a pending send or a handoff; every
    handoff by a Run in progress or a finished one; every finished Run by a
    pending or a made call of Complete. *)
Definition balanced {World : Type} (j : Job) (rt : Runtime World) : Prop :=
  tally (yielded j) (trace rt)
    = tally (checking j) (threads rt) + tally (skipped j) (trace rt)
      + tally (sending j) (threads rt) + tally (handed j) (trace rt)
  /\ tally (handed j) (trace rt)
    = tally (running j) (threads rt) + tally (ran j) (trace rt)
  /\ tally (ran j) (trace rt)
    = tally (reporting j) (threads rt) + tally (completed j) (trace rt).

(** ** A pool owner's starting point *)

(** A runtime in which nothing has happened yet. *)
Definition fresh {World : Type} (w : World) : Runtime World :=
  mkRuntime [] 0 [] w [].

(** The system right after [NewLocalWorkers numWorkers q]. *)
Definition boot {World : Type} (numWorkers : Z) (q : option QueueRef) (w : World)
  : System World :=
  let '(r, rt0) := NewLocalWorkers numWorkers q (fresh w) in mkSystem r rt0.

(** ** A pre-loaded queue *)

(** Modelled from the spec: the queue and the jobs are external to the pool
    (only the interfaces amboy.Queue and amboy.Job are used by local.go).
    This is the queue "pre-loaded with M distinct jobs" of the test
    scenarios: [next] yields the pending jobs in order and none when empty
    or cancelled, [complete] records that a job finished; a job's run
    operation sets its completed status. *)
Record Preloaded : Type := mkPreloaded {
  pending : list Job;       (* not yet yielded by Next *)
  marked : list Job;        (* jobs whose status says completed *)
  reported : list Job       (* jobs handed to Complete, newest first *)
}.

#[global] Instance preloaded_collaborators : Collaborators Preloaded := {
  q_next _ done w :=
    Some (if done then (None, w)
          else match pending w with
               | [] => (None, w)
               | j :: rest => (Some j, mkPreloaded rest (marked w) (reported w))
               end);
  q_complete _ _ j w := mkPreloaded (pending w) (marked w) (j :: reported w);
  job_run j w := mkPreloaded (pending w) (j :: marked w) (reported w);
  job_completed j w := existsb (Nat.eqb j) (marked w)
}.

(** The pre-loaded queue holding [jobs], of which [already] are completed. *)
Definition preload (jobs already : list Job) : Preloaded :=
  mkPreloaded jobs already [].

(** What the queue has yielded of job [j] and what it still holds of it. *)
Definition supply (j : Job) (rt : Runtime Preloaded) : nat :=
  tally (yielded j) (trace rt) + tally (Nat.eqb j) (pending (world rt)).

(** The events about job [j] happened in order up to the trace [tr]: no
    more calls of Complete than runs, no more runs than handoffs, no more
    handoffs than yields of the queue. *)
Definition in_order (j : Job) (tr : list Event) : Prop :=
  tally (completed j) tr <= tally (ran j) tr
  /\ tally (ran j) tr <= tally (handed j) tr
  /\ tally (handed j) tr <= tally (yielded j) tr.

(** ... and at every earlier moment as well. *)
Fixpoint orderly (j : Job) (tr : list Event) : Prop :=
  match tr with
  | [] => True
  | _ :: tr' => in_order j tr /\ orderly j tr'
  end.

(** A call of SetQueue that hands over a queue that is not nil. *)
Definition binds (l : Label) : bool :=
  match l with LSetQueue (Some _) => true | _ => false end.

(** No step of [ls] binds a queue. *)
Definition never_bound (ls : list Label) : bool :=
  forallb (fun l => negb (binds l)) ls.

(** [n] calls of Close in a row. *)
Fixpoint close_n {World : Type} (n : nat) (r : LocalWorkers) (rt : Runtime World)
  : LocalWorkers * Runtime World :=
  match n with
  | O => (r, rt)
  | S n' => let '(r', rt') := Close r rt in close_n n' r' rt'
  end.

(** The cancel function is stored exactly by the Start that starts the
    pool, and its flag has been allocated. *)
Definition handle_inv {World : Type} (s : System World) : Prop :=
  match canceler (pool s) with
  | None => started (pool s) = false
  | Some k => started (pool s) = true /\ k < length (flags (rt s))
  end.

(** A schedule that serves one job: the dispatcher (goroutine 0) takes it
    from the queue, checks it and hands it to the first worker (goroutine
    1), which runs it and reports it. *)
Definition serve_one : list Label :=
  [LGo 0; LGo 0; LGo 0; LHandoff 0 1; LGo 1; LGo 1].

(** Start, then serve [n] jobs one after the other. *)
Definition serve_all (n : nat) : list Label :=
  LStart CtxBackground :: concat (replicate n serve_one).

(** The events of serving the jobs [js] in order, newest first. *)
Fixpoint served (ctx : Ctx) (q : QueueRef) (ch : ChanId) (js : list Job) : list Event :=
  match js with
  | [] => []
  | j :: js' =>
      served ctx q ch js'
      ++ [EvComplete ctx q j; EvRun j; EvHandoff ch j; EvNext ctx q (Some j)]
  end.

(** Goroutine [i] is [g] and stays so whatever happens in [s], short of a
    step of its own. *)
Definition undisturbed {World : Type} `{!Collaborators World}
    (i : nat) (g : Goroutine) (s : System World) : Prop :=
  threads (rt s) !! i = Some g
  /\ forall l s', step l s = Some s' -> l <> LGo i -> threads (rt s') !! i = Some g.

(** The system after the steps [ls] on a one-worker pool over the
    pre-loaded queue. *)
Definition one_worker_after (ls : list Label) (jobs already : list Job)
  : System Preloaded :=
  let s0 := boot 1 (Some 0) (preload jobs already) in
  default s0 (exec ls s0).

(** A run of a pool of two workers over three jobs: the first two jobs
    are executed side by side, the third is taken by the worker that is
    free first, and Close comes while it is still being executed. *)
Definition busy_day : list Label :=
  [LStart CtxBackground;
   LGo 0; LGo 0; LGo 0; LHandoff 0 1;
   LGo 0; LGo 0; LGo 0; LHandoff 0 2;
   LGo 2; LGo 0; LGo 0; LGo 0; LGo 1; LGo 2; LHandoff 0 2;
   LGo 1; LGo 2; LClose; LGo 2;
   LGo 0; LGo 1; LGo 2; LClose].

Definition after_busy_day : System Preloaded :=
  let s0 := boot 2 (Some 0) (preload [1; 2; 3] []) in
  default s0 (exec busy_day s0).

(** ** Wiring of the goroutines *)

Definition is_dispatcher (g : Goroutine) : bool :=
  match g with GDispatcher _ _ _ _ => true | GWorker _ _ _ _ => false end.
Definition thread_ctx (g : Goroutine) : Ctx :=
  match g with GDispatcher c _ _ _ => c | GWorker c _ _ _ => c end.
Definition thread_queue (g : Goroutine) : QueueRef :=
  match g with GDispatcher _ q _ _ => q | GWorker _ _ q _ => q end.
Definition thread_chan (g : Goroutine) : ChanId :=
  match g with GDispatcher _ _ ch _ => ch | GWorker _ ch _ _ => ch end.

(** What a goroutine was started with: its kind, context, queue, channel. *)
Definition wiring (g : Goroutine) : bool * Ctx * QueueRef * ChanId :=
  (is_dispatcher g, thread_ctx g, thread_queue g, thread_chan g).

(** A worker that holds a job. *)
Definition busy (g : Goroutine) : bool :=
  match g with
  | GWorker _ _ _ (WRun _) | GWorker _ _ _ (WComplete _) => true
  | _ => false
  end.

(** A worker that has not returned. *)
Definition alive (g : Goroutine) : bool :=
  match g with
  | GWorker _ _ _ WExit => false
  | GWorker _ _ _ _ => true
  | GDispatcher _ _ _ _ => false
  end.

(** A dispatcher that is past its select and before its next one. *)
Definition armed (g : Goroutine) : bool :=
  match g with
  | GDispatcher _ _ _ DNext | GDispatcher _ _ _ (DCheck _)
  | GDispatcher _ _ _ (DSend _) => true
  | _ => false
  end.

(** A dispatcher about to call Next. *)
Definition polling (g : Goroutine) : bool :=
  match g with GDispatcher _ _ _ DNext => true | _ => false end.

(** The job a dispatcher holds, if any. *)
Definition held (g : Goroutine) : list Job :=
  match g with
  | GDispatcher _ _ _ (DCheck j) | GDispatcher _ _ _ (DSend j) => [j]
  | _ => []
  end.

Fixpoint held_jobs (ts : list Goroutine) : list Job :=
  match ts with
  | [] => []
  | g :: ts' => held g ++ held_jobs ts'
  end.

Definition is_handoff (e : Event) : bool :=
  match e with EvHandoff _ _ => true | _ => false end.
Definition is_next (e : Event) : bool :=
  match e with EvNext _ _ _ => true | _ => false end.

(** The jobs Next returned, newest first. *)
Fixpoint yields (tr : list Event) : list Job :=
  match tr with
  | [] => []
  | EvNext _ _ (Some j) :: tr' => j :: yields tr'
  | _ :: tr' => yields tr'
  end.

(** The jobs the dispatcher skipped or handed over, newest first. *)
Fixpoint decisions (tr : list Event) : list Job :=
  match tr with
  | [] => []
  | EvLog (LogJobCompleted j) :: tr' => j :: decisions tr'
  | EvHandoff _ j :: tr' => j :: decisions tr'
  | _ :: tr' => decisions tr'
  end.

(** The context and the queue of a call to the queue. *)
Definition queue_call (e : Event) : option (Ctx * QueueRef) :=
  match e with
  | EvNext c q _ | EvComplete c q _ => Some (c, q)
  | _ => None
  end.

(** The shape of a pool made by NewLocalWorkers: before Start there is no
    goroutine and no cancel function; after it there are one dispatcher
    and [size] workers, all on the queue of the pool, on the context of
    its cancel function and on one channel. *)
Definition wired {World : Type} (s : System World) : Prop :=
  if started (pool s)
  then exists ctx k q ch,
      canceler (pool s) = Some k
      /\ queue (pool s) = Some q
      /\ k < length (flags (rt s))
      /\ ch < nchans (rt s)
      /\ map wiring (threads (rt s))
         = (true, CtxCancel ctx k, q, ch)
           :: replicate (Z.to_nat (size (pool s))) (false, CtxCancel ctx k, q, ch)
  else threads (rt s) = [] /\ canceler (pool s) = None.

(** The cancel function of the pool has been called. *)
Definition cancelled {World : Type} (s : System World) : Prop :=
  exists k, canceler (pool s) = Some k /\ flags (rt s) !! k = Some true.

(** Every call to a queue in the trace went to the queue of the started
    pool, with a context cancelled by its cancel function. *)
Definition addressed {World : Type} (s : System World) : Prop :=
  forall e c q, e ∈ trace (rt s) -> queue_call e = Some (c, q) ->
    started (pool s) = true
    /\ queue (pool s) = Some q
    /\ exists parent k, c = CtxCancel parent k /\ canceler (pool s) = Some k.

(** The jobs yielded are the jobs decided, then the ones still held. *)
Definition in_turn {World : Type} (s : System World) : Prop :=
  yields (trace (rt s)) = held_jobs (threads (rt s)) ++ decisions (trace (rt s)).

(** A goroutine that has returned. *)
Definition returned (g : Goroutine) : bool :=
  match g with
  | GDispatcher _ _ _ DExit | GWorker _ _ _ WExit => true
  | _ => false
  end.

(** Only goroutines whose context is done have returned. *)
Definition exits_justified {World : Type} (s : System World) : Prop :=
  forall i g, threads (rt s) !! i = Some g -> returned g = true ->
    ctx_done (thread_ctx g) (flags (rt s)) = true.

(** The step of goroutine [i]. *)
Definition is_go (i : nat) (l : Label) : bool :=
  match l with LGo i' => i =? i' | _ => false end.

(** * Facts *)

Section Counting.
Context {A : Type}.
Implicit Types (p : A -> bool) (l : list A).

Lemma tally_app p l1 l2 : tally p (l1 ++ l2) = tally p l1 + tally p l2.
Proof. induction l1 as [|x l1 IH]; simpl; [done | rewrite IH; lia]. Qed.

Lemma tally_replicate p n x : tally p (replicate n x) = n * b2n (p x).
Proof. induction n as [|n IH]; simpl; [done | rewrite IH; lia]. Qed.

Lemma tally_lookup_le p l i x : l !! i = Some x -> b2n (p x) <= tally p l.
Proof.
  revert i. induction l as [|y l IH]; intros [|i] Hi; simpl in *; try done.
  - injection Hi as ->. lia.
  - specialize (IH i Hi). lia.
Qed.

Lemma tally_insert p l i x y :
  l !! i = Some x ->
  tally p (<[i := y]> l) = tally p l - b2n (p x) + b2n (p y).
Proof.
  revert i. induction l as [|z l IH]; intros [|i] Hi; simpl in *; try done.
  - injection Hi as ->. lia.
  - rewrite (IH i Hi). pose proof (tally_lookup_le p l i x Hi). lia.
Qed.

End Counting.

Section Accounting.
Context {World : Type} `{!Collaborators World}.
Implicit Types (rt : Runtime World) (s : System World) (j : Job).

Ltac thread_bounds j Hi :=
  pose proof (tally_lookup_le (checking j) _ _ _ Hi);
  pose proof (tally_lookup_le (sending j) _ _ _ Hi);
  pose proof (tally_lookup_le (running j) _ _ _ Hi);
  pose proof (tally_lookup_le (reporting j) _ _ _ Hi).

Ltac settle_books :=
  unfold b2n in *; simpl in *;
  repeat match goal with
         | |- context [?a =? ?b] => destruct (a =? b)
         | H : context [?a =? ?b] |- _ => destruct (a =? b)
         end;
  simpl in *; lia.

Lemma balanced_go_step j i rt rt' :
  go_step i rt = Some rt' -> balanced j rt -> balanced j rt'.
Proof.
  unfold go_step. destruct (threads rt !! i) as [g|] eqn:Hi; [|done].
  thread_bounds j Hi.
  destruct g as [c q out pc | c jobs q pc];
    [unfold dispatcher_step | unfold worker_step];
    destruct pc; repeat case_match; try done;
    intros [= <-] (Hy & Hh & Hr); unfold balanced; simpl;
    rewrite !(tally_insert _ _ _ _ _ Hi); settle_books.
Qed.

Lemma balanced_handoff j d w rt rt' :
  handoff d w rt = Some rt' -> balanced j rt -> balanced j rt'.
Proof.
  unfold handoff.
  destruct (threads rt !! d) as [[c q out [| | |j0|]|]|] eqn:Hd; try done.
  destruct (threads rt !! w) as [[|c' jobs q' []]|] eqn:Hw; try done.
  destruct (out =? jobs); [|done].
  assert (d <> w) as Hdw by (intros ->; congruence).
  intros [= <-] (Hy & Hh & Hr).
  thread_bounds j Hd. thread_bounds j Hw.
  assert (<[w := GWorker c' jobs q' (WRun j0)]> (threads rt) !! d
          = Some (GDispatcher c q out (DSend j0))) as Hd'
    by (rewrite list_lookup_insert_ne; [done | congruence]).
  unfold balanced; simpl.
  rewrite !(tally_insert _ _ _ _ _ Hd'), !(tally_insert _ _ _ _ _ Hw).
  settle_books.
Qed.

Lemma start_workers_threads n w sz ctx jobs q rt :
  threads (start_workers n w sz ctx jobs q rt)
  = threads rt ++ replicate n (GWorker ctx jobs q WSelect).
Proof.
  revert w rt. induction n as [|n IH]; intros w rt; simpl.
  - by rewrite app_nil_r.
  - rewrite IH. simpl. by rewrite <- app_assoc.
Qed.

Lemma start_workers_trace (p : Event -> bool) n w sz ctx jobs q rt :
  (forall m, p (EvLog m) = false) ->
  tally p (trace (start_workers n w sz ctx jobs q rt)) = tally p (trace rt).
Proof.
  intros Hp. revert w rt. induction n as [|n IH]; intros w rt; simpl; [done|].
  rewrite IH. simpl. by rewrite Hp.
Qed.

Lemma start_workers_skipped j n w sz ctx jobs q rt :
  tally (skipped j) (trace (start_workers n w sz ctx jobs q rt))
  = tally (skipped j) (trace rt).
Proof.
  revert w rt. induction n as [|n IH]; intros w rt; simpl; [done|].
  by rewrite IH.
Qed.

Lemma start_workers_frame n w sz ctx jobs q rt :
  flags (start_workers n w sz ctx jobs q rt) = flags rt
  /\ nchans (start_workers n w sz ctx jobs q rt) = nchans rt
  /\ world (start_workers n w sz ctx jobs q rt) = world rt.
Proof.
  revert w rt. induction n as [|n IH]; intros w rt; simpl; [done|].
  destruct (IH (w + 1)%Z
              (emit (EvLog (LogStartedWorker w sz)) (spawn (GWorker ctx jobs q WSelect) rt)))
    as (-> & -> & ->). done.
Qed.

Lemma balanced_Start j ctx r rt :
  balanced j rt -> balanced j (Start ctx r rt).2.
Proof.
  intros (Hy & Hh & Hr). unfold Start.
  destruct (started r); [done|]. destruct (queue r) as [q|]; [|done].
  unfold balanced; simpl.
  rewrite !start_workers_threads, start_workers_skipped,
    !start_workers_trace by done.
  simpl. rewrite !tally_app, !tally_replicate. simpl. lia.
Qed.

Lemma balanced_step j l s s' :
  step l s = Some s' -> balanced j (rt s) -> balanced j (rt s').
Proof.
  destruct l as [q|ctx| | |k|i|d w]; simpl.
  - by intros [= <-].
  - destruct (ctx_wf ctx (flags (rt s))); [|done].
    pose proof (balanced_Start j ctx (pool s) (rt s)) as HS.
    destruct (Start ctx (pool s) (rt s)) as [[e r] rt']. intros [= <-]. exact HS.
  - unfold Close. destruct (canceler (pool s)); by intros [= <-].
  - by intros [= <-].
  - destruct (canceler (pool s)); [destruct (k =? c); [done|]|]; by intros [= <-].
  - destruct (go_step i (rt s)) as [rt'|] eqn:Hg; [|done].
    intros [= <-]. by apply (balanced_go_step j i (rt s)).
  - destruct (handoff d w (rt s)) as [rt'|] eqn:Hg; [|done].
    intros [= <-]. by apply (balanced_handoff j d w (rt s)).
Qed.

Lemma balanced_exec j ls s s' :
  exec ls s = Some s' -> balanced j (rt s) -> balanced j (rt s').
Proof.
  revert s. induction ls as [|l ls IH]; intros s; simpl.
  - by intros [= <-].
  - destruct (step l s) as [s1|] eqn:Hl; [|done].
    intros He Hb. apply (IH s1 He). by apply (balanced_step j l s).
Qed.

Lemma balanced_in_order j rt : balanced j rt -> in_order j (trace rt).
Proof. unfold balanced, in_order. lia. Qed.

Lemma orderly_in_order j tr : orderly j tr -> in_order j tr.
Proof. destruct tr; simpl; [unfold in_order; simpl; lia | tauto]. Qed.

Lemma orderly_logs j ms tr : orderly j tr -> orderly j (map EvLog ms ++ tr).
Proof.
  intros Htr. induction ms as [|m ms IH]; simpl; [done|].
  split; [|done]. apply orderly_in_order in IH. unfold in_order in *. simpl. lia.
Qed.

Lemma start_workers_logs n w sz ctx jobs q rt :
  exists ms, trace (start_workers n w sz ctx jobs q rt) = map EvLog ms ++ trace rt.
Proof.
  revert w rt. induction n as [|n IH]; intros w rt; simpl.
  - by exists [].
  - destruct (IH (w + 1)%Z
                (emit (EvLog (LogStartedWorker w sz)) (spawn (GWorker ctx jobs q WSelect) rt)))
      as [ms ->].
    exists (ms ++ [LogStartedWorker w sz]). simpl.
    by rewrite map_app, <- app_assoc.
Qed.

(** A step appends one event, or nothing but log lines. *)
Lemma step_trace l s s' :
  step l s = Some s' ->
  (exists e, trace (rt s') = e :: trace (rt s))
  \/ (exists ms, trace (rt s') = map EvLog ms ++ trace (rt s)).
Proof.
  destruct l as [q|ctx| | |k|i|d w]; simpl.
  - intros [= <-]. right. by exists [].
  - destruct (ctx_wf ctx (flags (rt s))); [|done].
    unfold Start. destruct (started (pool s)); [intros [= <-]; right; by exists []|].
    destruct (queue (pool s)) as [q|]; intros [= <-]; right; [|by exists []].
    simpl.
    match goal with |- context [start_workers ?n ?w ?sz ?c ?ch ?q ?r] =>
      destruct (start_workers_logs n w sz c ch q r) as [ms ->] end.
    exists (ms ++ [LogRunning (size (pool s))]). simpl.
    by rewrite map_app, <- app_assoc.
  - unfold Close. destruct (canceler (pool s)); intros [= <-]; simpl;
      [left; by eexists | right; by exists []].
  - intros [= <-]. right. by exists [].
  - destruct (canceler (pool s)); [destruct (k =? c); [done|]|];
      intros [= <-]; right; by exists [].
  - unfold go_step. destruct (threads (rt s) !! i) as [g|]; [|done].
    destruct g as [c q out pc | c jobs q pc];
      [unfold dispatcher_step | unfold worker_step]; destruct pc; simpl;
      repeat case_match; try done; intros [= <-]; simpl;
      first [right; by exists [] | left; by eexists].
  - unfold handoff. repeat case_match; try done. intros [= <-]. left. by eexists.
Qed.

Lemma orderly_step j l s s' :
  step l s = Some s' -> balanced j (rt s) -> orderly j (trace (rt s)) ->
  orderly j (trace (rt s')).
Proof.
  intros Hl Hb Ho. pose proof (balanced_in_order j _ (balanced_step j l s s' Hl Hb)) as Hin.
  destruct (step_trace l s s' Hl) as [[e He]|[ms Hms]].
  - rewrite He in *. simpl. done.
  - rewrite Hms. by apply orderly_logs.
Qed.

Lemma orderly_exec j ls s s' :
  exec ls s = Some s' -> balanced j (rt s) -> orderly j (trace (rt s)) ->
  orderly j (trace (rt s')).
Proof.
  revert s. induction ls as [|l ls IH]; intros s; simpl.
  - by intros [= <-].
  - destruct (step l s) as [s1|] eqn:Hl; [|done].
    intros He Hb Ho. apply (IH s1 He).
    + by apply (balanced_step j l s).
    + by apply (orderly_step j l s).
Qed.

(** A worker that holds a job is never blocked: its next step is enabled
    whatever the cancellation flags say. *)
Lemma busy_worker_steps j i g s :
  threads (rt s) !! i = Some g ->
  running j g || reporting j g = true ->
  is_Some (step (LGo i) s).
Proof.
  intros Hi Hg. simpl. unfold go_step. rewrite Hi.
  destruct g as [c q out pc | c jobs q pc]; [by destruct pc|].
  destruct pc; simpl in *; try done; by eexists.
Qed.

End Accounting.

Section PreloadedQueue.
Implicit Types (rt : Runtime Preloaded) (s : System Preloaded) (j : Job).

Lemma supply_go_step j i rt rt' :
  go_step i rt = Some rt' -> supply j rt' = supply j rt.
Proof.
  unfold go_step, supply. destruct (threads rt !! i) as [g|] eqn:Hi; [|done].
  destruct g as [c q out pc | c jobs q pc];
    [unfold dispatcher_step | unfold worker_step]; destruct pc; simpl;
    repeat case_match; simplify_eq; try done; intros [= <-]; simpl; try done.
  all: unfold b2n; simpl.
  all: try match goal with H : pending _ = _ |- _ => rewrite H end; simpl; try lia.
Qed.

Lemma supply_step j l s s' :
  step l s = Some s' -> supply j (rt s') = supply j (rt s).
Proof.
  destruct l as [q|ctx| | |k|i|d w]; simpl.
  - by intros [= <-].
  - destruct (ctx_wf ctx (flags (rt s))); [|done].
    unfold Start. destruct (started (pool s)); [by intros [= <-]|].
    destruct (queue (pool s)) as [q|]; intros [= <-]; [|done].
    unfold supply; simpl.
    rewrite start_workers_trace by done.
    by destruct (start_workers_frame (Z.to_nat (size (pool s))) 1 (size (pool s))
                   (CtxCancel ctx (length (flags (rt s)))) (nchans (rt s)) q
                   (emit (EvLog (LogRunning (size (pool s))))
                      (spawn (GDispatcher (CtxCancel ctx (length (flags (rt s)))) q
                                (nchans (rt s)) DSelect)
                         (set_nchans (S (nchans (rt s)))
                            (set_flags (flags (rt s) ++ [false]) (rt s))))))
      as (_ & _ & ->).
  - unfold Close. destruct (canceler (pool s)); by intros [= <-].
  - by intros [= <-].
  - destruct (canceler (pool s)); [destruct (k =? c); [done|]|]; by intros [= <-].
  - destruct (go_step i (rt s)) as [rt'|] eqn:Hg; [|done].
    intros [= <-]. by apply (supply_go_step j i).
  - unfold handoff. repeat case_match; try done. by intros [= <-].
Qed.

Lemma supply_exec j ls s s' :
  exec ls s = Some s' -> supply j (rt s') = supply j (rt s).
Proof.
  revert s. induction ls as [|l ls IH]; intros s; simpl.
  - by intros [= <-].
  - destruct (step l s) as [s1|] eqn:Hl; [|done].
    intros He. rewrite (IH s1 He). by apply (supply_step j l).
Qed.

Lemma tally_absent j (l : list Job) : j ∉ l -> tally (Nat.eqb j) l = 0.
Proof.
  induction l as [|x l IH]; [done|]. rewrite not_elem_of_cons. intros [Hne Hl].
  simpl. rewrite (IH Hl). by destruct (Nat.eqb_spec j x).
Qed.

Lemma tally_NoDup j (l : list Job) : NoDup l -> tally (Nat.eqb j) l <= 1.
Proof.
  induction 1 as [|x l Hx Hnd IH]; simpl; [lia|].
  destruct (Nat.eqb_spec j x) as [->|]; simpl; [|lia].
  rewrite (tally_absent x l Hx). lia.
Qed.

Lemma exec_app (ls1 ls2 : list Label) s s1 :
  exec ls1 s = Some s1 -> exec (ls1 ++ ls2) s = exec ls2 s1.
Proof.
  revert s. induction ls1 as [|l ls1 IH]; intros s; simpl.
  - by intros [= <-].
  - destruct (step l s) as [s'|]; [apply IH | done].
Qed.

(** One round of [serve_one] on a pool whose dispatcher and first worker
    are at their selects, with [j] next in the queue and not completed. *)
Lemma serve_one_round s ctx q ch rest j js :
  threads (rt s) = GDispatcher ctx q ch DSelect :: GWorker ctx ch q WSelect :: rest ->
  ctx_done ctx (flags (rt s)) = false ->
  pending (world (rt s)) = j :: js ->
  existsb (Nat.eqb j) (marked (world (rt s))) = false ->
  exists s',
    exec serve_one s = Some s'
    /\ threads (rt s') = threads (rt s)
    /\ flags (rt s') = flags (rt s)
    /\ pending (world (rt s')) = js
    /\ marked (world (rt s')) = j :: marked (world (rt s))
    /\ trace (rt s')
       = [EvComplete ctx q j; EvRun j; EvHandoff ch j; EvNext ctx q (Some j)]
         ++ trace (rt s).
Proof.
  destruct s as [r [fl nc ts [pd mk rp] tr]]. simpl.
  intros -> Hd -> Hm. unfold go_step, handoff. simpl.
  do 4 (rewrite ?Hd, ?Hm, ?Nat.eqb_refl; simpl). by eexists.
Qed.

Lemma serve_rounds js : forall s ctx q ch rest,
  threads (rt s) = GDispatcher ctx q ch DSelect :: GWorker ctx ch q WSelect :: rest ->
  ctx_done ctx (flags (rt s)) = false ->
  pending (world (rt s)) = js ->
  NoDup js ->
  (forall j, j ∈ js -> existsb (Nat.eqb j) (marked (world (rt s))) = false) ->
  exists s',
    exec (concat (replicate (length js) serve_one)) s = Some s'
    /\ threads (rt s') = threads (rt s)
    /\ pending (world (rt s')) = []
    /\ trace (rt s') = served ctx q ch js ++ trace (rt s).
Proof.
  induction js as [|j js IH]; intros s ctx q ch rest Hts Hd Hp Hnd Hm.
  - exists s. by simpl.
  - apply NoDup_cons in Hnd as [Hj Hnd].
    destruct (serve_one_round s ctx q ch rest j js Hts Hd Hp) as
      (s1 & He1 & Hts1 & Hfl1 & Hp1 & Hm1 & Htr1).
    { apply Hm. by left. }
    destruct (IH s1 ctx q ch rest) as (s2 & He2 & Hts2 & Hp2 & Htr2); try done.
    { by rewrite Hts1. }
    { by rewrite Hfl1. }
    { intros j' Hj'. rewrite Hm1. simpl. rewrite (Hm j') by by right.
      destruct (Nat.eqb_spec j' j) as [->|]; done. }
    exists s2.
    change (concat (replicate (length (j :: js)) serve_one))
      with (serve_one ++ concat (replicate (length js) serve_one)).
    rewrite (exec_app serve_one _ s s1 He1).
    repeat split; try done; [congruence|].
    rewrite Htr2, Htr1. simpl. by rewrite <- app_assoc.
Qed.

Lemma tally_served ctx q ch js j :
  tally (ran j) (served ctx q ch js) = tally (Nat.eqb j) js
  /\ tally (completed j) (served ctx q ch js) = tally (Nat.eqb j) js
  /\ tally (handed j) (served ctx q ch js) = tally (Nat.eqb j) js.
Proof.
  induction js as [|j' js (IH1 & IH2 & IH3)]; simpl; [done|].
  rewrite !tally_app, IH1, IH2, IH3. simpl. lia.
Qed.

Lemma tally_present j (l : list Job) : j ∈ l -> 1 <= tally (Nat.eqb j) l.
Proof.
  induction 1 as [x l|x y l Hin IH]; simpl; [rewrite Nat.eqb_refl; simpl|]; lia.
Qed.

(** X11.  Whatever the size of the pool, the jobs of a pre-loaded queue can
    all be served: after Start there is a schedule at the end of which the
    queue is empty and each job has been handed over, run and reported
    complete exactly once. *)
Theorem all_jobs_can_be_served (W : Z) (q : QueueRef) (jobs : list Job) :
  NoDup jobs ->
  exists s,
    exec (serve_all (length jobs)) (boot W (Some q) (preload jobs [])) = Some s
    /\ pending (world (rt s)) = []
    /\ forall j, j ∈ jobs ->
         tally (handed j) (trace (rt s)) = 1
         /\ tally (ran j) (trace (rt s)) = 1
         /\ tally (completed j) (trace (rt s)) = 1.
Proof.
  intros Hnd. unfold serve_all.
  set (s0 := boot W (Some q) (preload jobs [])).
  set (ctx := CtxCancel CtxBackground 0).
  assert (exists s1 rest,
            step (LStart CtxBackground) s0 = Some s1
            /\ threads (rt s1)
               = GDispatcher ctx q 0 DSelect :: GWorker ctx 0 q WSelect :: rest
            /\ flags (rt s1) = [false]
            /\ world (rt s1) = preload jobs []
            /\ forall j, tally (handed j) (trace (rt s1)) = 0
                 /\ tally (ran j) (trace (rt s1)) = 0
                 /\ tally (completed j) (trace (rt s1)) = 0)
    as (s1 & rest & Hs1 & Hts & Hfl & Hw & Htr).
  { unfold s0, boot, NewLocalWorkers. simpl.
    assert (forall sz tr0, (1 <= sz)%Z ->
              (forall j, tally (handed j) tr0 = 0 /\ tally (ran j) tr0 = 0
                         /\ tally (completed j) tr0 = 0) ->
              exists s1 rest,
                step (LStart CtxBackground)
                  (mkSystem (mkLocalWorkers sz false (Some q) None)
                     (mkRuntime [] 0 [] (preload jobs []) tr0)) = Some s1
                /\ threads (rt s1)
                   = GDispatcher ctx q 0 DSelect :: GWorker ctx 0 q WSelect :: rest
                /\ flags (rt s1) = [false]
                /\ world (rt s1) = preload jobs []
                /\ forall j, tally (handed j) (trace (rt s1)) = 0
                     /\ tally (ran j) (trace (rt s1)) = 0
                     /\ tally (completed j) (trace (rt s1)) = 0) as Hgen.
    { intros sz tr0 Hsz Htr0. simpl. unfold Start. simpl.
      destruct (Z.to_nat sz) as [|n] eqn:Hn; [lia|].
      eexists. exists (replicate n (GWorker ctx 0 q WSelect)).
      split; [reflexivity|]. simpl.
      rewrite start_workers_threads.
      match goal with |- context [start_workers ?n ?w ?sz ?c ?ch ?q ?r] =>
        destruct (start_workers_frame n w sz c ch q r) as (-> & _ & ->) end.
      simpl. repeat split; try done.
      all: rewrite start_workers_trace by done; simpl; apply Htr0. }
    destruct (Z.leb_spec W 0); apply Hgen; simpl; done || lia. }
  destruct (serve_rounds jobs s1 ctx q 0 rest) as (s2 & He & _ & Hp & Htr2);
    try done.
  { by rewrite Hfl. }
  { by rewrite Hw. }
  { intros j _. by rewrite Hw. }
  exists s2. cbn [exec]. rewrite Hs1. split; [done|]. split; [done|].
  intros j Hj. rewrite Htr2, !tally_app.
  destruct (Htr j) as (-> & -> & ->).
  destruct (tally_served ctx q 0 jobs j) as (-> & -> & ->).
  pose proof (tally_NoDup j jobs Hnd). pose proof (tally_present j jobs Hj). lia.
Qed.

End PreloadedQueue.

(** ** The pool controller *)

Section ControllerFacts.
Context {World : Type} `{!Collaborators World}.
Implicit Types (r : LocalWorkers) (rt : Runtime World) (s : System World).

(** C6.  NewLocalWorkers keeps a worker count of at least 1 and replaces
    any other by exactly 1; the pool it returns is not started, has no
    cancel function and holds the queue it was given; no goroutine is
    started and no flag or channel is made. *)
Theorem C6_constructor_clamps_size (numWorkers : Z) (q : option QueueRef) rt :
  let '(r, rt') := NewLocalWorkers numWorkers q rt in
  size r = (if (numWorkers <=? 0)%Z then 1%Z else numWorkers)
  /\ (1 <= size r)%Z
  /\ started r = false
  /\ Started r = false
  /\ canceler r = None
  /\ queue r = q
  /\ threads rt' = threads rt
  /\ flags rt' = flags rt
  /\ nchans rt' = nchans rt.
Proof.
  unfold NewLocalWorkers. simpl.
  destruct (Z.leb_spec numWorkers 0); simpl; repeat split; lia.
Qed.

Lemma unbound_step l s s' :
  binds l = false -> step l s = Some s' ->
  queue (pool s) = None /\ started (pool s) = false /\ canceler (pool s) = None ->
  queue (pool s') = None /\ started (pool s') = false /\ canceler (pool s') = None.
Proof.
  intros Hl Hs (Hq & Hst & Hc).
  destruct l as [[q|]|ctx| | |k|i|d w]; simpl in *; try done.
  - injection Hs as <-. unfold SetQueue. by rewrite Hst.
  - destruct (ctx_wf ctx (flags (rt s))); [|done].
    unfold Start in Hs. rewrite Hst, Hq in Hs. by injection Hs as <-.
  - unfold Close in Hs. rewrite Hc in Hs. by injection Hs as <-.
  - by injection Hs as <-.
  - rewrite Hc in Hs. by injection Hs as <-.
  - destruct (go_step i (rt s)); [|done]. by injection Hs as <-.
  - destruct (handoff d w (rt s)); [|done]. by injection Hs as <-.
Qed.

Lemma unbound_exec ls s s' :
  never_bound ls = true -> exec ls s = Some s' ->
  queue (pool s) = None /\ started (pool s) = false /\ canceler (pool s) = None ->
  queue (pool s') = None /\ started (pool s') = false /\ canceler (pool s') = None.
Proof.
  revert s. induction ls as [|l ls IH]; intros s Hnb; simpl.
  - by intros [= <-].
  - destruct (step l s) as [s1|] eqn:Hl; [|done]. intros He Hs.
    simpl in Hnb. apply andb_true_iff in Hnb as [Hnl Hnls].
    apply negb_true_iff in Hnl.
    apply (IH s1 Hnls He). by apply (unbound_step l s s1).
Qed.

(** C3.  A pool is built on the nil queue and then used in any way that
    never hands it a queue: SetQueue is called with nil only, Start and
    Close are called, contexts are cancelled.  A call of Start on it then
    returns the error "runner must have an embedded queue" and changes
    nothing: the pool stays unstarted and without a cancel function, and
    the runtime is as it was. *)
Theorem C3_start_without_queue (numWorkers : Z) (w : World) (ls : list Label)
    s (ctx : Ctx) :
  never_bound ls = true ->
  exec ls (boot numWorkers None w) = Some s ->
  Start ctx (pool s) (rt s) = (Some ErrNoQueue, pool s, rt s)
  /\ Started (pool s) = false
  /\ canceler (pool s) = None.
Proof.
  intros Hnb He.
  assert (queue (pool (boot numWorkers None w)) = None
          /\ started (pool (boot numWorkers None w)) = false
          /\ canceler (pool (boot numWorkers None w)) = None) as H0.
  { unfold boot, NewLocalWorkers. simpl. by destruct (numWorkers <=? 0)%Z. }
  destruct (unbound_exec ls _ s Hnb He H0) as (Hq & Hst & Hc).
  repeat split; try done. unfold Start. by rewrite Hst, Hq.
Qed.

End ControllerFacts.

Lemma C3_witness :
  let s := mkSystem (mkLocalWorkers 3 false None None) (fresh (preload [1; 2] [])) in
  Start CtxBackground (pool s) (rt s) = (Some ErrNoQueue, pool s, rt s)
  /\ Started (pool s) = false
  /\ canceler (pool s) = None.
Proof.
  apply (C3_start_without_queue 3 (preload [1; 2] [])
           [LStart CtxBackground; LSetQueue None; LClose; LStart CtxBackground]).
  - vm_compute. reflexivity.
  - vm_compute. reflexivity.
Defined.

Section Lifecycle.
Context {World : Type}.
Implicit Types (r : LocalWorkers) (rt : Runtime World) (q : option QueueRef).

(** Start answers nil exactly when it leaves the pool started. *)
Lemma Start_result ctx r rt :
  started (Start ctx r rt).1.2 = bool_decide ((Start ctx r rt).1.1 = None).
Proof.
  unfold Start. destruct (started r) eqn:Hst; [done|].
  destruct (queue r); simpl; [done | by rewrite Hst].
Qed.

(** C4.  Once a call of Start has returned nil, SetQueue returns the error
    "cannot add new queue after starting a runner" and leaves the pool,
    and so the queue it holds, as it is.  On a pool that is not started
    SetQueue returns nil and stores the queue it is given in place of
    whichever one the pool held, touching nothing else. *)
Theorem C4_setqueue_guard ctx r rt r' rt' q :
  (Start ctx r rt = (None, r', rt') ->
   SetQueue q r' = (Some ErrStarted, r') /\ queue (SetQueue q r').2 = queue r')
  /\ (Started r = false ->
      SetQueue q r = (None, mkLocalWorkers (size r) false q (canceler r))
      /\ queue (SetQueue q r).2 = q).
Proof.
  split.
  - intros HS. pose proof (Start_result ctx r rt) as Hres. rewrite HS in Hres.
    simpl in Hres. unfold SetQueue. by rewrite Hres.
  - unfold Started, SetQueue. by intros ->.
Qed.

(** C5.  Start on a started pool returns nil and changes neither the pool
    nor the runtime: no goroutine, channel, flag or log line is added.  So
    after a call of Start that returned nil, a second call, with any
    context, returns nil and leaves everything as the first call left it. *)
Theorem C5_start_idempotent ctx ctx' r rt r' rt' :
  Start ctx r rt = (None, r', rt') ->
  Start ctx' r' rt' = (None, r', rt')
  /\ threads (Start ctx' r' rt').2 = threads rt'
  /\ (Start ctx' r' rt').1.2 = r'.
Proof.
  intros HS. pose proof (Start_result ctx r rt) as Hres. rewrite HS in Hres.
  simpl in Hres. unfold Start. by rewrite Hres.
Qed.

(** C10.  Close returns the pool it was given: size, started flag, queue
    and cancel function are as before.  Started therefore answers as
    before, and on a started pool it still answers true and SetQueue still
    fails with "cannot add new queue after starting a runner".  Close also
    spawns nothing and leaves the channels and the collaborators alone. *)
Theorem C10_close_frame r rt q :
  (Close r rt).1 = r
  /\ size (Close r rt).1 = size r
  /\ started (Close r rt).1 = started r
  /\ queue (Close r rt).1 = queue r
  /\ canceler (Close r rt).1 = canceler r
  /\ Started (Close r rt).1 = Started r
  /\ SetQueue q (Close r rt).1 = SetQueue q r
  /\ (Started r = true ->
      Started (Close r rt).1 = true
      /\ SetQueue q (Close r rt).1 = (Some ErrStarted, (Close r rt).1))
  /\ threads (Close r rt).2 = threads rt
  /\ nchans (Close r rt).2 = nchans rt
  /\ world (Close r rt).2 = world rt.
Proof.
  assert ((Close r rt).1 = r) as Hr by (unfold Close; by destruct (canceler r)).
  rewrite !Hr. repeat split; try done.
  - unfold Started in *. unfold SetQueue. by destruct (started r).
  - unfold Close. by destruct (canceler r).
  - unfold Close. by destruct (canceler r).
  - unfold Close. by destruct (canceler r).
Qed.

Lemma close_n_None n r rt : canceler r = None -> close_n n r rt = (r, rt).
Proof.
  intros Hc. induction n as [|n IH]; simpl; [done|].
  unfold Close. by rewrite Hc.
Qed.

Lemma close_n_Some n r rt k :
  canceler r = Some k ->
  (close_n n r rt).1 = r
  /\ tally (cancelled_by k) (trace (close_n n r rt).2)
     = n + tally (cancelled_by k) (trace rt)
  /\ flags (close_n (S n) r rt).2 = <[k := true]> (flags rt).
Proof.
  intros Hc. revert rt. induction n as [|n IH]; intros rt.
  - simpl. unfold Close. by rewrite Hc.
  - change (close_n (S (S n)) r rt)
      with (let '(r', rt') := Close r rt in close_n (S n) r' rt').
    change (close_n (S n) r rt)
      with (let '(r', rt') := Close r rt in close_n n r' rt').
    unfold Close at 1 2 3. rewrite Hc.
    destruct (IH (emit (EvCancel k) (set_flags (<[k := true]> (flags rt)) rt)))
      as (-> & -> & ->).
    simpl. rewrite Nat.eqb_refl. simpl.
    repeat split; [lia|]. by rewrite list_insert_insert_eq.
Qed.

End Lifecycle.

Lemma C4_witness :
  let r := mkLocalWorkers 2 false (Some 0) None in
  let r' := mkLocalWorkers 2 true (Some 0) (Some 0) in
  (SetQueue (Some 9) r' = (Some ErrStarted, r') /\ queue (SetQueue (Some 9) r').2 = Some 0)
  /\ (SetQueue (Some 9) r = (None, mkLocalWorkers 2 false (Some 9) None)
      /\ queue (SetQueue (Some 9) r).2 = Some 9).
Proof.
  pose proof (C4_setqueue_guard CtxBackground (mkLocalWorkers 2 false (Some 0) None)
                (fresh tt) (mkLocalWorkers 2 true (Some 0) (Some 0))
                (Start CtxBackground (mkLocalWorkers 2 false (Some 0) None) (fresh tt)).2
                (Some 9)) as [Hstarted Hunstarted].
  split.
  - apply Hstarted. vm_compute. reflexivity.
  - apply Hunstarted. reflexivity.
Defined.

Lemma C10_witness :
  let r := (Start CtxBackground (mkLocalWorkers 2 false (Some 0) None) (fresh tt)).1.2 in
  let rt1 := (Start CtxBackground (mkLocalWorkers 2 false (Some 0) None) (fresh tt)).2 in
  Started r = true
  /\ Started (Close r rt1).1 = true
  /\ SetQueue (Some 5) (Close r rt1).1 = (Some ErrStarted, (Close r rt1).1)
  /\ queue (Close r rt1).1 = Some 0.
Proof.
  destruct (C10_close_frame
              (Start CtxBackground (mkLocalWorkers 2 false (Some 0) None) (fresh tt)).1.2
              (Start CtxBackground (mkLocalWorkers 2 false (Some 0) None) (fresh tt)).2
              (Some 5))
    as (_ & _ & _ & Hq & _ & _ & _ & Hstarted & _).
  split; [reflexivity|].
  destruct (Hstarted eq_refl) as [Hst Hset].
  split; [exact Hst|]. split; [exact Hset|]. exact Hq.
Defined.

Lemma C5_witness :
  let r := mkLocalWorkers 2 false (Some 0) None in
  let r' := (Start CtxBackground r (fresh tt)).1.2 in
  let rt' := (Start CtxBackground r (fresh tt)).2 in
  Start (CtxCancel CtxBackground 0) r' rt' = (None, r', rt')
  /\ threads (Start (CtxCancel CtxBackground 0) r' rt').2 = threads rt'
  /\ (Start (CtxCancel CtxBackground 0) r' rt').1.2 = r'.
Proof.
  apply (C5_start_idempotent CtxBackground (CtxCancel CtxBackground 0)
           (mkLocalWorkers 2 false (Some 0) None) (fresh tt)).
  vm_compute. reflexivity.
Defined.

(** ** Close and the cancel function *)

Section CloseFacts.
Context {World : Type} `{!Collaborators World}.
Implicit Types (r : LocalWorkers) (rt : Runtime World) (s : System World).

Lemma handle_inv_step l s s' : step l s = Some s' -> handle_inv s -> handle_inv s'.
Proof.
  unfold handle_inv. destruct l as [q|ctx| | |k|i|d w]; simpl.
  - intros [= <-]. simpl. unfold SetQueue.
    destruct (started (pool s)) eqn:Hst; simpl; [rewrite Hst|]; intros H; exact H.
  - destruct (ctx_wf ctx (flags (rt s))); [|done]. unfold Start.
    destruct (started (pool s)) eqn:Hst;
      [intros [= <-]; simpl; rewrite Hst; tauto|].
    destruct (queue (pool s)) as [q|]; intros [= <-]; simpl;
      [|rewrite Hst; tauto].
    intros _. split; [done|].
    match goal with |- context [start_workers ?n ?w ?sz ?c ?ch ?q ?r] =>
      destruct (start_workers_frame n w sz c ch q r) as (-> & _ & _) end.
    simpl. rewrite length_app. simpl. lia.
  - unfold Close. destruct (canceler (pool s)) eqn:Hc; intros [= <-]; simpl;
      rewrite Hc; [|done].
    intros [-> Hk]. by rewrite length_insert.
  - intros [= <-]. simpl. destruct (canceler (pool s)); [|done].
    intros [-> Hk]. rewrite length_app. simpl. split; [done | lia].
  - destruct (canceler (pool s)) eqn:Hc; [destruct (k =? c); [done|]|];
      intros [= <-]; simpl; rewrite Hc; [|done].
    intros [-> Hk]. by rewrite length_insert.
  - destruct (go_step i (rt s)) as [rt'|] eqn:Hg; [|done]. intros [= <-]. simpl.
    destruct (canceler (pool s)); [|done]. intros [-> Hk]. split; [done|].
    revert Hg. unfold go_step. destruct (threads (rt s) !! i) as [[c0 q out pc|c0 jobs q pc]|];
      [unfold dispatcher_step | unfold worker_step |]; try done;
      destruct pc; repeat case_match; try done; by intros [= <-].
  - destruct (handoff d w (rt s)) as [rt'|] eqn:Hg; [|done]. intros [= <-]. simpl.
    destruct (canceler (pool s)); [|done]. intros [-> Hk]. split; [done|].
    revert Hg. unfold handoff. repeat case_match; try done. by intros [= <-].
Qed.

Lemma handle_inv_exec ls s s' : exec ls s = Some s' -> handle_inv s -> handle_inv s'.
Proof.
  revert s. induction ls as [|l ls IH]; intros s; simpl.
  - by intros [= <-].
  - destruct (step l s) as [s1|] eqn:Hl; [|done].
    intros He Hs. apply (IH s1 He). by apply (handle_inv_step l s).
Qed.

(** C8, as the code has it.  In every state a pool can reach after
    NewLocalWorkers: Close calls the stored cancel function if there is
    one and does nothing at all otherwise; there is none as long as the
    pool is not started.  Every call of Close on a started pool calls the
    cancel function once more, so [n] calls of Close call it [n] times;
    the first call sets the cancellation flag and the later ones leave the
    flags as they are. *)
Theorem C8_close_calls_handle (numWorkers : Z) (q : option QueueRef) (w : World)
    s (n : nat) :
  reachable (boot numWorkers q w) s ->
  (Started (pool s) = false ->
   canceler (pool s) = None /\ close_n n (pool s) (rt s) = (pool s, rt s))
  /\ (canceler (pool s) = None -> Close (pool s) (rt s) = (pool s, rt s))
  /\ (forall k, canceler (pool s) = Some k ->
      Started (pool s) = true
      /\ Close (pool s) (rt s)
         = (pool s, emit (EvCancel k) (set_flags (<[k := true]> (flags (rt s))) (rt s)))
      /\ flags (Close (pool s) (rt s)).2 !! k = Some true
      /\ tally (cancelled_by k) (trace (close_n n (pool s) (rt s)).2)
         = n + tally (cancelled_by k) (trace (rt s))
      /\ flags (close_n (S n) (pool s) (rt s)).2 = flags (Close (pool s) (rt s)).2).
Proof.
  intros [ls Hls].
  assert (handle_inv s) as Hinv.
  { apply (handle_inv_exec ls _ s Hls). unfold handle_inv, boot, NewLocalWorkers.
    simpl. by destruct (numWorkers <=? 0)%Z. }
  unfold handle_inv, Started in *. split; [|split].
  - intros Hst. destruct (canceler (pool s)) eqn:Hc.
    + destruct Hinv. congruence.
    + split; [done|]. by apply close_n_None.
  - intros Hc. unfold Close. by rewrite Hc.
  - intros k Hc. rewrite Hc in Hinv. destruct Hinv as [Hst Hk].
    destruct (close_n_Some n (pool s) (rt s) k Hc) as (_ & Ht & Hf).
    unfold Close. rewrite Hc. simpl. repeat split; try done.
    by apply list_lookup_insert_eq.
Qed.

End CloseFacts.

(** C8 as specified does not hold: Close is to call the cancel function at
    most once over repeated calls, but two calls of Close on a started
    pool call the cancel function made by Start twice. *)
Lemma C8_counterexample :
  let '(r, rt0) := NewLocalWorkers 2 (Some 0) (fresh tt) in
  let '(_, r1, rt1) := Start CtxBackground r rt0 in
  canceler r1 = Some 0
  /\ tally (cancelled_by 0) (trace rt1) = 0
  /\ tally (cancelled_by 0) (trace (close_n 2 r1 rt1).2) = 2
  /\ ~ tally (cancelled_by 0) (trace (close_n 2 r1 rt1).2) <= 1.
Proof. vm_compute. repeat split; lia. Qed.

Lemma C8_witness :
  let s := after_busy_day in
  (Started (pool s) = false ->
   canceler (pool s) = None /\ close_n 3 (pool s) (rt s) = (pool s, rt s))
  /\ (canceler (pool s) = None -> Close (pool s) (rt s) = (pool s, rt s))
  /\ (forall k, canceler (pool s) = Some k ->
      Started (pool s) = true
      /\ Close (pool s) (rt s)
         = (pool s, emit (EvCancel k) (set_flags (<[k := true]> (flags (rt s))) (rt s)))
      /\ flags (Close (pool s) (rt s)).2 !! k = Some true
      /\ tally (cancelled_by k) (trace (close_n 3 (pool s) (rt s)).2)
         = 3 + tally (cancelled_by k) (trace (rt s))
      /\ flags (close_n 4 (pool s) (rt s)).2 = flags (Close (pool s) (rt s)).2).
Proof.
  apply (C8_close_calls_handle 2 (Some 0) (preload [1; 2; 3] []) after_busy_day 3).
  exists busy_day. vm_compute. reflexivity.
Defined.

(** ** The goroutines *)

Section GoroutineFacts.
Context {World : Type} `{!Collaborators World}.
Implicit Types (r : LocalWorkers) (rt : Runtime World) (s : System World).

Lemma go_step_threads i rt rt' :
  go_step i rt = Some rt' -> exists g, threads rt' = <[i := g]> (threads rt).
Proof.
  unfold go_step. destruct (threads rt !! i) as [[c q out pc|c jobs q pc]|];
    [unfold dispatcher_step | unfold worker_step |]; try done;
    destruct pc; repeat case_match; try done; intros [= <-]; by eexists.
Qed.

(** A Start that starts the pool spawns one dispatcher and [size] workers,
    all on the context derived from the one given and on one new channel. *)
Lemma Start_spawns ctx r rt q :
  started r = false -> queue r = Some q ->
  let workerCtx := CtxCancel ctx (length (flags rt)) in
  threads (Start ctx r rt).2
  = threads rt
    ++ GDispatcher workerCtx q (nchans rt) DSelect
       :: replicate (Z.to_nat (size r)) (GWorker workerCtx (nchans rt) q WSelect).
Proof.
  intros Hst Hq. unfold Start. rewrite Hst, Hq. simpl.
  rewrite start_workers_threads. simpl. by rewrite <- app_assoc.
Qed.

Lemma Start_threads ctx r rt :
  exists new, threads (Start ctx r rt).2 = threads rt ++ new.
Proof.
  destruct (started r) eqn:Hst;
    [unfold Start; rewrite Hst; exists []; by rewrite app_nil_r|].
  destruct (queue r) as [q|] eqn:Hq;
    [|unfold Start; rewrite Hst, Hq; exists []; by rewrite app_nil_r].
  rewrite (Start_spawns ctx r rt q Hst Hq). by eexists.
Qed.

(** A worker that is not at its select is moved by its own steps only. *)
Lemma busy_worker_undisturbed i ctx jobs q pc s :
  threads (rt s) !! i = Some (GWorker ctx jobs q pc) ->
  pc <> WSelect ->
  undisturbed i (GWorker ctx jobs q pc) s.
Proof.
  intros Hi Hpc. split; [done|]. intros l s' Hl Hne.
  destruct l as [q0|c| | |k|i'|d w]; simpl in Hl.
  - by injection Hl as <-.
  - destruct (ctx_wf c (flags (rt s))); [|done].
    destruct (Start_threads c (pool s) (rt s)) as [new Hnew].
    destruct (Start c (pool s) (rt s)) as [[e r'] rt']. injection Hl as <-.
    simpl in *. rewrite Hnew. by apply lookup_app_l_Some.
  - unfold Close in Hl. destruct (canceler (pool s)); by injection Hl as <-.
  - by injection Hl as <-.
  - destruct (canceler (pool s)); [destruct (k =? c); [done|]|]; by injection Hl as <-.
  - destruct (go_step i' (rt s)) as [rt'|] eqn:Hg; [|done]. injection Hl as <-.
    destruct (go_step_threads i' _ _ Hg) as [g Hg']. simpl. rewrite Hg'.
    rewrite list_lookup_insert_ne; [done | congruence].
  - unfold handoff in Hl.
    destruct (threads (rt s) !! d) as [[cd qd out [| | |j0|]|]|] eqn:Hd; try done.
    destruct (threads (rt s) !! w) as [[|cw jw qw []]|] eqn:Hw; try done.
    destruct (out =? jw); [|done]. injection Hl as <-. simpl.
    rewrite !list_lookup_insert_ne; [done | congruence..].
Qed.


(** C9.  When Next returns nil the dispatcher is back at the head of its
    loop in the same step: nothing was sent and nothing is on offer on
    its channel, and its next step, enabled at once, is the select again,
    from which it calls Next again unless the context is done.  No wait
    lies in between. *)
Theorem C9_empty_queue_retry s i ctx q out w' :
  threads (rt s) !! i = Some (GDispatcher ctx q out DNext) ->
  q_next q (ctx_done ctx (flags (rt s))) (world (rt s)) = Some (None, w') ->
  exists s',
    step (LGo i) s = Some s'
    /\ rt s' = set_thread i (GDispatcher ctx q out DSelect)
                 (emit (EvNext ctx q None) (set_world w' (rt s)))
    /\ threads (rt s') !! i = Some (GDispatcher ctx q out DSelect)
    /\ (forall j, tally (handed j) (trace (rt s')) = tally (handed j) (trace (rt s)))
    /\ (forall w, step (LHandoff i w) s' = None)
    /\ step (LGo i) s'
       = Some (mkSystem (pool s')
                 (set_thread i
                    (GDispatcher ctx q out
                       (if ctx_done ctx (flags (rt s')) then DExit else DNext))
                    (rt s'))).
Proof.
  intros Hi Hq. eexists. split.
  { simpl. unfold go_step. rewrite Hi. simpl. rewrite Hq. reflexivity. }
  assert (<[i := GDispatcher ctx q out DSelect]> (threads (rt s)) !! i
          = Some (GDispatcher ctx q out DSelect)) as Hi'
    by (apply list_lookup_insert_eq; by eapply lookup_lt_Some).
  simpl. repeat split; try done.
  - intros w. unfold handoff. simpl. by rewrite Hi'.
  - unfold go_step. simpl. rewrite Hi'. simpl.
    by destruct (ctx_done ctx (flags (rt s))).
Qed.


End GoroutineFacts.


Lemma C9_witness :
  let s := one_worker_after [LStart CtxBackground; LGo 0] [] [] in
  let ctx := CtxCancel CtxBackground 0 in
  exists s',
    step (LGo 0) s = Some s'
    /\ rt s' = set_thread 0 (GDispatcher ctx 0 0 DSelect)
                 (emit (EvNext ctx 0 None) (set_world (preload [] []) (rt s)))
    /\ threads (rt s') !! 0 = Some (GDispatcher ctx 0 0 DSelect)
    /\ (forall j, tally (handed j) (trace (rt s')) = tally (handed j) (trace (rt s)))
    /\ (forall w, step (LHandoff 0 w) s' = None)
    /\ step (LGo 0) s'
       = Some (mkSystem (pool s')
                 (set_thread 0
                    (GDispatcher ctx 0 0
                       (if ctx_done ctx (flags (rt s')) then DExit else DNext))
                    (rt s'))).
Proof.
  apply (C9_empty_queue_retry (one_worker_after [LStart CtxBackground; LGo 0] [] [])
           0 (CtxCancel CtxBackground 0) 0 0 (preload [] [])).
  - reflexivity.
  - reflexivity.
Defined.


(** * Further properties of the pool *)

Section Wiring.
Context {World : Type} `{!Collaborators World}.
Implicit Types (r : LocalWorkers) (rt : Runtime World) (s : System World).

Lemma tally_fmap {A B : Type} (f : A -> B) (p : B -> bool) (l : list A) :
  tally p (map f l) = tally (fun x => p (f x)) l.
Proof. induction l as [|x l IH]; simpl; [done | by rewrite IH]. Qed.

Lemma tally_mono {A : Type} (p p' : A -> bool) (l : list A) :
  (forall x, p x = true -> p' x = true) -> tally p l <= tally p' l.
Proof.
  intros Hpp. induction l as [|x l IH]; simpl; [lia|].
  specialize (Hpp x). destruct (p x), (p' x); simpl;
    first [lia | by specialize (Hpp eq_refl)].
Qed.

Lemma ctx_done_alloc c fl : ctx_done c (fl ++ [false]) = ctx_done c fl.
Proof.
  induction c as [|p IH k]; simpl; [done|]. rewrite IH. f_equal.
  destruct (decide (k < length fl)) as [Hk|Hk].
  - by rewrite lookup_app_l.
  - rewrite (lookup_ge_None_2 fl k) by lia. simpl.
    destruct (decide (k = length fl)) as [->|Hne].
    + by rewrite list_lookup_middle.
    + rewrite lookup_ge_None_2; [done|]. rewrite length_app. simpl. lia.
Qed.

(** A step of a goroutine touches neither flags nor channels. *)
Lemma go_step_frame i rt rt' :
  go_step i rt = Some rt' -> flags rt' = flags rt /\ nchans rt' = nchans rt.
Proof.
  unfold go_step. destruct (threads rt !! i) as [[c q out pc|c jobs q pc]|];
    [unfold dispatcher_step | unfold worker_step |]; try done;
    destruct pc; repeat case_match; try done; by intros [= <-].
Qed.

Lemma handoff_frame d w rt rt' :
  handoff d w rt = Some rt' ->
  flags rt' = flags rt /\ nchans rt' = nchans rt /\ world rt' = world rt.
Proof. unfold handoff. repeat case_match; try done. by intros [= <-]. Qed.

(** Goroutines keep what they were started with. *)
Lemma go_step_wiring i rt rt' :
  go_step i rt = Some rt' -> map wiring (threads rt') = map wiring (threads rt).
Proof.
  unfold go_step. destruct (threads rt !! i) as [g|] eqn:Hi; [|done].
  assert (forall g', wiring g' = wiring g ->
            map wiring (<[i := g']> (threads rt)) = map wiring (threads rt)) as Hins.
  { intros g' Hg'. rewrite list_fmap_insert, Hg'. apply list_insert_id.
    by rewrite list_lookup_fmap, Hi. }
  destruct g as [c q out pc|c jobs q pc];
    [unfold dispatcher_step | unfold worker_step];
    destruct pc; repeat case_match; try done; intros [= <-]; simpl; by apply Hins.
Qed.

Lemma handoff_wiring d w rt rt' :
  handoff d w rt = Some rt' -> map wiring (threads rt') = map wiring (threads rt).
Proof.
  unfold handoff.
  destruct (threads rt !! d) as [[cd qd out [| | |j0|]|]|] eqn:Hd; try done.
  destruct (threads rt !! w) as [[|cw jw qw []]|] eqn:Hw; try done.
  destruct (out =? jw); [|done]. intros [= <-]. simpl.
  assert (d <> w) by (intros ->; congruence).
  rewrite !list_fmap_insert. simpl.
  rewrite (list_insert_id (map wiring (threads rt)) w)
    by by rewrite list_lookup_fmap, Hw.
  apply list_insert_id. by rewrite list_lookup_fmap, Hd.
Qed.

(** What Start does on an unstarted pool that holds a queue. *)
Lemma Start_fresh ctx r rt q :
  started r = false -> queue r = Some q ->
  let k := length (flags rt) in
  let workerCtx := CtxCancel ctx k in
  Start ctx r rt = (None, mkLocalWorkers (size r) true (Some q) (Some k), (Start ctx r rt).2)
  /\ flags (Start ctx r rt).2 = flags rt ++ [false]
  /\ nchans (Start ctx r rt).2 = S (nchans rt)
  /\ world (Start ctx r rt).2 = world rt
  /\ threads (Start ctx r rt).2
     = threads rt
       ++ GDispatcher workerCtx q (nchans rt) DSelect
          :: replicate (Z.to_nat (size r)) (GWorker workerCtx (nchans rt) q WSelect).
Proof.
  intros Hst Hq k workerCtx.
  pose proof (Start_spawns ctx r rt q Hst Hq) as Hts.
  unfold Start in *. rewrite Hst, Hq in *. simpl in *.
  match goal with |- context [start_workers ?n ?w ?sz ?c ?ch ?q ?r] =>
    destruct (start_workers_frame n w sz c ch q r) as (-> & -> & ->) end.
  done.
Qed.

Lemma wired_frame s s' :
  pool s' = pool s ->
  map wiring (threads (rt s')) = map wiring (threads (rt s)) ->
  length (flags (rt s)) <= length (flags (rt s')) ->
  nchans (rt s) <= nchans (rt s') ->
  wired s -> wired s'.
Proof.
  unfold wired. intros -> Hts Hfl Hnc. destruct (started (pool s)).
  - intros (ctx & k & q & ch & ? & ? & ? & ? & ?).
    exists ctx, k, q, ch. rewrite Hts. repeat split; try done; lia.
  - intros [Hnil ?]. split; [|done]. rewrite Hnil in Hts.
    by destruct (threads (rt s')).
Qed.

Lemma wired_step l s s' : step l s = Some s' -> wired s -> wired s'.
Proof.
  destruct l as [q|ctx| | |k|i|d w]; simpl.
  - intros [= <-]. unfold wired, SetQueue. simpl.
    destruct (started (pool s)) eqn:Hst; simpl; [rewrite Hst|]; intros H; exact H.
  - destruct (ctx_wf ctx (flags (rt s))); [|done].
    destruct (started (pool s)) eqn:Hst.
    { unfold Start. rewrite Hst. intros [= <-]. by apply wired_frame. }
    destruct (queue (pool s)) as [q|] eqn:Hq.
    2:{ unfold Start. rewrite Hst, Hq. intros [= <-]. by apply wired_frame. }
    destruct (Start_fresh ctx (pool s) (rt s) q Hst Hq) as (HS & Hfl & Hnc & _ & Hts).
    rewrite HS. intros [= <-]. unfold wired. rewrite Hst. intros [Hnil _]. simpl.
    exists ctx, (length (flags (rt s))), q, (nchans (rt s)).
    rewrite Hfl, Hnc, Hts, Hnil, length_app. simpl.
    repeat split; try done; try lia. by rewrite fmap_replicate.
  - unfold Close. destruct (canceler (pool s)) as [k|]; intros [= <-];
      apply wired_frame; simpl; try done. by rewrite length_insert.
  - intros [= <-]. apply wired_frame; simpl; try done. rewrite length_app. lia.
  - destruct (canceler (pool s)) as [c|];
      [destruct (k =? c); [done|]|]; intros [= <-];
      apply wired_frame; simpl; try done; by rewrite length_insert.
  - destruct (go_step i (rt s)) as [rt'|] eqn:Hg; [|done]. intros [= <-].
    destruct (go_step_frame i _ _ Hg) as [Hfl Hnc].
    apply wired_frame; simpl; try done; [by apply (go_step_wiring i) | |];
      [by rewrite Hfl | by rewrite Hnc].
  - destruct (handoff d w (rt s)) as [rt'|] eqn:Hg; [|done]. intros [= <-].
    destruct (handoff_frame d w _ _ Hg) as (Hfl & Hnc & _).
    apply wired_frame; simpl; try done; [by apply (handoff_wiring d w) | |];
      [by rewrite Hfl | by rewrite Hnc].
Qed.

Lemma wired_exec ls s s' : exec ls s = Some s' -> wired s -> wired s'.
Proof.
  revert s. induction ls as [|l ls IH]; intros s; simpl.
  - by intros [= <-].
  - destruct (step l s) as [s1|] eqn:Hl; [|done].
    intros He Hs. apply (IH s1 He). by apply (wired_step l s).
Qed.

Lemma wired_boot (numWorkers : Z) (q : option QueueRef) (w : World) :
  wired (boot numWorkers q w).
Proof. unfold wired, boot, NewLocalWorkers. simpl. by destruct (numWorkers <=? 0)%Z. Qed.

(** What [wired] says of one goroutine. *)
Lemma wired_thread s i g :
  wired s -> threads (rt s) !! i = Some g ->
  exists ctx k q ch,
    started (pool s) = true
    /\ canceler (pool s) = Some k
    /\ queue (pool s) = Some q
    /\ k < length (flags (rt s))
    /\ wiring g = (bool_decide (i = 0), CtxCancel ctx k, q, ch).
Proof.
  unfold wired. intros Hw Hi. destruct (started (pool s)).
  - destruct Hw as (ctx & k & q & ch & Hc & Hq & Hk & _ & Hts).
    exists ctx, k, q, ch. repeat split; try done.
    assert (map wiring (threads (rt s)) !! i = Some (wiring g)) as Hwi
      by by rewrite list_lookup_fmap, Hi.
    rewrite Hts in Hwi. destruct i as [|i]; simpl in Hwi.
    + injection Hwi as ????. unfold wiring. rewrite bool_decide_true by done. congruence.
    + apply lookup_replicate in Hwi as [Hwi _]. by rewrite Hwi.
  - destruct Hw as [Hnil _]. by rewrite Hnil in Hi.
Qed.

Lemma pool_step l s s' :
  step l s = Some s' ->
  size (pool s') = size (pool s)
  /\ (started (pool s) = true -> pool s' = pool s).
Proof.
  destruct l as [q|ctx| | |k|i|d w]; simpl.
  - intros [= <-]. simpl. unfold SetQueue. by destruct (started (pool s)).
  - destruct (ctx_wf ctx (flags (rt s))); [|done]. unfold Start.
    destruct (started (pool s)); [by intros [= <-]|].
    destruct (queue (pool s)); by intros [= <-].
  - unfold Close. destruct (canceler (pool s)); by intros [= <-].
  - by intros [= <-].
  - destruct (canceler (pool s)); [destruct (k =? c); [done|]|]; by intros [= <-].
  - destruct (go_step i (rt s)); [|done]. by intros [= <-].
  - destruct (handoff d w (rt s)); [|done]. by intros [= <-].
Qed.

Lemma size_exec ls s s' : exec ls s = Some s' -> size (pool s') = size (pool s).
Proof.
  revert s. induction ls as [|l ls IH]; intros s; simpl.
  - by intros [= <-].
  - destruct (step l s) as [s1|] eqn:Hl; [|done].
    intros He. rewrite (IH s1 He). by apply (pool_step l s s1).
Qed.

(** X1.  Once the pool is started, nothing that can happen changes the
    struct: not SetQueue, Start or Close, not the goroutines.  Size,
    started flag, queue and cancel function stay as Start left them. *)
Theorem started_pool_is_frozen ls s s' :
  Started (pool s) = true -> exec ls s = Some s' -> pool s' = pool s.
Proof.
  unfold Started. revert s. induction ls as [|l ls IH]; intros s Hst; simpl.
  - by intros [= <-].
  - destruct (step l s) as [s1|] eqn:Hl; [|done].
    destruct (pool_step l s s1 Hl) as [_ Hp]. specialize (Hp Hst).
    intros He. rewrite <- Hp. apply IH; [|done]. by rewrite Hp.
Qed.

Lemma wired_counts s :
  wired s -> started (pool s) = true ->
  length (threads (rt s)) = S (Z.to_nat (size (pool s)))
  /\ tally is_dispatcher (threads (rt s)) = 1
  /\ tally (fun g => negb (is_dispatcher g)) (threads (rt s))
     = Z.to_nat (size (pool s)).
Proof.
  unfold wired. intros Hw Hst. rewrite Hst in Hw.
  destruct Hw as (ctx & k & q' & ch & _ & _ & _ & _ & Hts).
  split; [|split].
  - rewrite <- (length_map wiring), Hts. simpl. by rewrite length_replicate.
  - change is_dispatcher with (fun g => (wiring g).1.1.1).
    rewrite <- (tally_fmap wiring (fun x => x.1.1.1)), Hts. simpl.
    rewrite tally_replicate. simpl. lia.
  - change (fun g => negb (is_dispatcher g)) with (fun g => negb (wiring g).1.1.1).
    rewrite <- (tally_fmap wiring (fun x => negb x.1.1.1)), Hts. simpl.
    rewrite tally_replicate. simpl. lia.
Qed.

(** X2.  A pool made by NewLocalWorkers runs no goroutine before Start and
    exactly one dispatcher and [size] workers after it, where [size] is
    the worker count clamped at construction; no goroutine is ever added
    later.  So at most [size] jobs are held by workers at any moment. *)
Theorem pool_census (numWorkers : Z) (q : option QueueRef) (w : World) s :
  reachable (boot numWorkers q w) s ->
  size (pool s) = Z.max 1 numWorkers
  /\ length (threads (rt s))
     = (if Started (pool s) then S (Z.to_nat (size (pool s))) else 0)
  /\ tally is_dispatcher (threads (rt s)) = (if Started (pool s) then 1 else 0)
  /\ tally busy (threads (rt s)) <= Z.to_nat (size (pool s)).
Proof.
  intros [ls Hls].
  pose proof (wired_exec ls _ s Hls (wired_boot numWorkers q w)) as Hw.
  pose proof (size_exec ls _ s Hls) as Hsz.
  split.
  { rewrite Hsz. unfold boot, NewLocalWorkers. simpl.
    destruct (Z.leb_spec numWorkers 0); simpl; lia. }
  unfold Started. destruct (started (pool s)) eqn:Hst.
  - destruct (wired_counts s Hw Hst) as (Hlen & Hd & Hwk).
    repeat split; try done. rewrite <- Hwk. apply tally_mono.
    intros [c q0 out pc|c jobs q0 pc]; simpl; [by destruct pc|done].
  - unfold wired in Hw. rewrite Hst in Hw. destruct Hw as [-> _].
    simpl. repeat split; lia.
Qed.

End Wiring.

Lemma started_pool_is_frozen_witness :
  let s0 := boot 2 (Some 0) (preload [1; 2; 3] []) in
  let s1 := default s0 (exec [LStart CtxBackground] s0) in
  Started (pool s1) = true /\ pool after_busy_day = pool s1.
Proof.
  split; [reflexivity|].
  apply (started_pool_is_frozen (tail busy_day)
           (default (boot 2 (Some 0) (preload [1; 2; 3] []))
              (exec [LStart CtxBackground] (boot 2 (Some 0) (preload [1; 2; 3] []))))
           after_busy_day).
  - reflexivity.
  - vm_compute. reflexivity.
Defined.

(** ** After Close *)

Section AfterClose.
Context {World : Type} `{!Collaborators World}.
Implicit Types (r : LocalWorkers) (rt : Runtime World) (s : System World).

Lemma insert_true_keeps (fl : list bool) k k' :
  fl !! k = Some true -> <[k' := true]> fl !! k = Some true.
Proof.
  intros Hk. destruct (decide (k' = k)) as [->|Hne].
  - apply list_lookup_insert_eq. by eapply lookup_lt_Some.
  - by rewrite list_lookup_insert_ne.
Qed.

(** No step clears a cancellation flag. *)
Lemma flag_step l s s' k :
  step l s = Some s' -> flags (rt s) !! k = Some true -> flags (rt s') !! k = Some true.
Proof.
  intros Hl Hk. destruct l as [q|ctx| | |k'|i|d w]; simpl in Hl.
  - by injection Hl as <-.
  - destruct (ctx_wf ctx (flags (rt s))); [|done].
    destruct (started (pool s)) eqn:Hst.
    { unfold Start in Hl. rewrite Hst in Hl. by injection Hl as <-. }
    destruct (queue (pool s)) as [q|] eqn:Hq.
    2:{ unfold Start in Hl. rewrite Hst, Hq in Hl. by injection Hl as <-. }
    destruct (Start_fresh ctx (pool s) (rt s) q Hst Hq) as (HS & Hfl & _).
    rewrite HS in Hl. injection Hl as <-. simpl. rewrite Hfl.
    by apply lookup_app_l_Some.
  - unfold Close in Hl. destruct (canceler (pool s)); injection Hl as <-; [|done].
    simpl. by apply insert_true_keeps.
  - injection Hl as <-. simpl. by apply lookup_app_l_Some.
  - destruct (canceler (pool s)); [destruct (k' =? c); [done|]|];
      injection Hl as <-; simpl; by apply insert_true_keeps.
  - destruct (go_step i (rt s)) as [rt'|] eqn:Hg; [|done]. injection Hl as <-.
    simpl. by destruct (go_step_frame i _ _ Hg) as [-> _].
  - destruct (handoff d w (rt s)) as [rt'|] eqn:Hg; [|done]. injection Hl as <-.
    simpl. by destruct (handoff_frame d w _ _ Hg) as (-> & _ & _).
Qed.

Lemma ctx_done_mono c (fl fl' : list bool) :
  (forall k, fl !! k = Some true -> fl' !! k = Some true) ->
  ctx_done c fl = true -> ctx_done c fl' = true.
Proof.
  intros Hfl. induction c as [|p IH k]; simpl; [done|].
  rewrite !orb_true_iff. intros [Hk|Hp]; [left | right; by apply IH].
  destruct (fl !! k) as [[]|] eqn:Hlk; try done. by rewrite (Hfl k Hlk).
Qed.

(** A context that is done stays done whatever happens next: no
    call of the pool and no step of a goroutine clears a cancellation. *)
Theorem cancellation_is_permanent (c : Ctx) ls s s' :
  ctx_done c (flags (rt s)) = true ->
  exec ls s = Some s' ->
  ctx_done c (flags (rt s')) = true.
Proof.
  revert s. induction ls as [|l ls IH]; intros s Hc; simpl.
  - by intros [= <-].
  - destruct (step l s) as [s1|] eqn:Hl; [|done]. apply IH.
    apply (ctx_done_mono c (flags (rt s))); [|done].
    intros k. by apply (flag_step l).
Qed.

Lemma cancelled_step l s s' :
  wired s -> cancelled s -> step l s = Some s' -> cancelled s'.
Proof.
  intros Hw (k & Hc & Hk) Hl.
  assert (started (pool s) = true) as Hst.
  { unfold wired in Hw. destruct (started (pool s)); [done|].
    destruct Hw as [_ Hn]. congruence. }
  destruct (pool_step l s s' Hl) as [_ Hp]. exists k. rewrite (Hp Hst).
  split; [done|]. by apply (flag_step l s).
Qed.

(** With the pool cancelled, every goroutine finds its context done. *)
Lemma cancelled_thread s i g :
  wired s -> cancelled s -> threads (rt s) !! i = Some g ->
  ctx_done (thread_ctx g) (flags (rt s)) = true.
Proof.
  intros Hw (k & Hc & Hk) Hi.
  destruct (wired_thread s i g Hw Hi) as (ctx & k' & q & ch & _ & Hc' & _ & _ & Hg).
  assert (k' = k) as -> by congruence.
  injection Hg as _ Hg _ _. rewrite Hg. simpl. unfold CancelFunc in *. by rewrite Hk.
Qed.

Ltac thread_caps Hi :=
  pose proof (tally_lookup_le armed _ _ _ Hi);
  pose proof (tally_lookup_le polling _ _ _ Hi).

(** With the pool cancelled, handoffs eat up armed dispatchers and calls
    of Next eat up polling ones, and neither comes back. *)
Lemma spent_step l s s' :
  wired s -> cancelled s -> step l s = Some s' ->
  tally is_handoff (trace (rt s')) + tally armed (threads (rt s'))
    <= tally is_handoff (trace (rt s)) + tally armed (threads (rt s))
  /\ tally is_next (trace (rt s')) + tally polling (threads (rt s'))
    <= tally is_next (trace (rt s)) + tally polling (threads (rt s)).
Proof.
  intros Hw Hcn Hl.
  assert (started (pool s) = true) as Hst.
  { destruct Hcn as (k & Hc & _). unfold wired in Hw.
    destruct (started (pool s)); [done|]. destruct Hw as [_ Hn]. congruence. }
  destruct l as [q|ctx| | |k|i|d w]; simpl in Hl.
  - injection Hl as <-. simpl. lia.
  - destruct (ctx_wf ctx (flags (rt s))); [|done].
    unfold Start in Hl. rewrite Hst in Hl. injection Hl as <-. simpl. lia.
  - unfold Close in Hl. destruct (canceler (pool s)); injection Hl as <-; simpl; lia.
  - injection Hl as <-. simpl. lia.
  - destruct (canceler (pool s)); [destruct (k =? c); [done|]|];
      injection Hl as <-; simpl; lia.
  - destruct (go_step i (rt s)) as [rt'|] eqn:Hg; [|done]. injection Hl as <-.
    simpl. revert Hg. unfold go_step.
    destruct (threads (rt s) !! i) as [g|] eqn:Hi; [|done].
    pose proof (cancelled_thread s i g Hw Hcn Hi) as Hdone. thread_caps Hi.
    destruct g as [c q out pc|c jobs q pc]; simpl in Hdone;
      [unfold dispatcher_step | unfold worker_step]; rewrite ?Hdone;
      destruct pc; repeat case_match; try done; intros [= <-]; simpl;
      rewrite !(tally_insert _ _ _ _ _ Hi); unfold b2n in *; simpl in *; lia.
  - destruct (handoff d w (rt s)) as [rt'|] eqn:Hg; [|done]. injection Hl as <-.
    simpl. revert Hg. unfold handoff.
    destruct (threads (rt s) !! d) as [[cd qd out [| | |j0|]|]|] eqn:Hd; try done.
    destruct (threads (rt s) !! w) as [[|cw jw qw []]|] eqn:Hw'; try done.
    destruct (out =? jw); [|done]. intros [= <-].
    assert (d <> w) by (intros ->; congruence).
    thread_caps Hd. thread_caps Hw'.
    assert (<[w := GWorker cw jw qw (WRun j0)]> (threads (rt s)) !! d
            = Some (GDispatcher cd qd out (DSend j0))) as Hd'
      by (rewrite list_lookup_insert_ne; [done | congruence]).
    simpl. rewrite !(tally_insert _ _ _ _ _ Hd'), !(tally_insert _ _ _ _ _ Hw').
    unfold b2n in *; simpl in *; lia.
Qed.

Lemma spent_exec ls s s' :
  wired s -> cancelled s -> exec ls s = Some s' ->
  wired s' /\ cancelled s'
  /\ tally is_handoff (trace (rt s')) + tally armed (threads (rt s'))
     <= tally is_handoff (trace (rt s)) + tally armed (threads (rt s))
  /\ tally is_next (trace (rt s')) + tally polling (threads (rt s'))
     <= tally is_next (trace (rt s)) + tally polling (threads (rt s)).
Proof.
  revert s. induction ls as [|l ls IH]; intros s Hw Hc; simpl.
  - intros [= <-]. repeat split; try done; lia.
  - destruct (step l s) as [s1|] eqn:Hl; [|done]. intros He.
    destruct (spent_step l s s1 Hw Hc Hl) as [H1 H2].
    destruct (IH s1 (wired_step l s s1 Hl Hw) (cancelled_step l s s1 Hw Hc Hl) He)
      as (? & ? & ? & ?).
    repeat split; try done; lia.
Qed.

(** The state right after Close on a started pool made by NewLocalWorkers. *)
Lemma closed_pool (numWorkers : Z) (q : option QueueRef) (w : World) s s1 :
  reachable (boot numWorkers q w) s ->
  Started (pool s) = true ->
  step LClose s = Some s1 ->
  wired s1 /\ cancelled s1
  /\ threads (rt s1) = threads (rt s)
  /\ tally is_handoff (trace (rt s1)) = tally is_handoff (trace (rt s))
  /\ tally is_next (trace (rt s1)) = tally is_next (trace (rt s))
  /\ tally polling (threads (rt s)) <= tally armed (threads (rt s))
  /\ tally armed (threads (rt s)) <= 1.
Proof.
  intros [ls Hls] Hst Hl.
  pose proof (wired_exec ls _ s Hls (wired_boot numWorkers q w)) as Hw.
  pose proof (wired_step LClose s s1 Hl Hw) as Hw1.
  destruct (wired_counts s Hw Hst) as (_ & Hd & _).
  assert (tally armed (threads (rt s)) <= 1) as Ha.
  { rewrite <- Hd. apply tally_mono. by intros [c q0 out pc|c jobs q0 pc]. }
  assert (tally polling (threads (rt s)) <= tally armed (threads (rt s))) as Hp.
  { apply tally_mono. intros [c q0 out pc|c jobs q0 pc]; [by destruct pc | done]. }
  unfold wired, Started in *. rewrite Hst in Hw.
  destruct Hw as (ctx & k & q' & ch & Hc & _ & Hk & _ & _).
  simpl in Hl. unfold Close in Hl. rewrite Hc in Hl. injection Hl as <-.
  repeat split; try done.
  exists k. simpl. split; [done|]. by apply list_lookup_insert_eq.
Qed.

(** X3.  After Close on a started pool every goroutine finds its context
    done, now and at any later moment: a dispatcher at its select returns
    instead of calling Next, and a worker at its select can return. *)
Theorem close_cancels_every_goroutine (numWorkers : Z) (q : option QueueRef) (w : World)
    s ls s' i g :
  reachable (boot numWorkers q w) s ->
  Started (pool s) = true ->
  exec (LClose :: ls) s = Some s' ->
  threads (rt s') !! i = Some g ->
  ctx_done (thread_ctx g) (flags (rt s')) = true
  /\ (forall c q0 ch, g = GDispatcher c q0 ch DSelect ->
      step (LGo i) s'
      = Some (mkSystem (pool s') (set_thread i (GDispatcher c q0 ch DExit) (rt s'))))
  /\ (forall c ch q0, g = GWorker c ch q0 WSelect ->
      step (LGo i) s'
      = Some (mkSystem (pool s') (set_thread i (GWorker c ch q0 WExit) (rt s')))).
Proof.
  intros Hr Hst He Hi. cbn [exec] in He.
  destruct (step LClose s) as [s1|] eqn:Hl; [|done].
  destruct (closed_pool numWorkers q w s s1 Hr Hst Hl) as (Hw1 & Hc1 & _).
  destruct (spent_exec ls s1 s' Hw1 Hc1 He) as (Hw' & Hc' & _).
  pose proof (cancelled_thread s' i g Hw' Hc' Hi) as Hdone.
  split; [done|]. split; intros; subst g; simpl in *; unfold go_step;
    rewrite Hi; simpl; by rewrite Hdone.
Qed.

(** X4.  After Close on a started pool the dispatcher calls Next at most
    once more and hands over at most one more job, whatever the schedule
    and however many jobs the queue still holds. *)
Theorem close_bounds_further_work (numWorkers : Z) (q : option QueueRef) (w : World)
    s ls s' :
  reachable (boot numWorkers q w) s ->
  Started (pool s) = true ->
  exec (LClose :: ls) s = Some s' ->
  tally is_handoff (trace (rt s')) <= tally is_handoff (trace (rt s)) + 1
  /\ tally is_next (trace (rt s')) <= tally is_next (trace (rt s)) + 1.
Proof.
  intros Hr Hst He. cbn [exec] in He.
  destruct (step LClose s) as [s1|] eqn:Hl; [|done].
  destruct (closed_pool numWorkers q w s s1 Hr Hst Hl)
    as (Hw1 & Hc1 & Hts & Hh & Hn & Hp & Ha).
  destruct (spent_exec ls s1 s' Hw1 Hc1 He) as (_ & _ & H1 & H2).
  rewrite Hts, Hh in H1. rewrite Hts, Hn in H2. lia.
Qed.

End AfterClose.

Lemma close_cancels_every_goroutine_witness :
  let s' := one_worker_after [LStart CtxBackground; LClose] [1] [] in
  let c := CtxCancel CtxBackground 0 in
  ctx_done c (flags (rt s')) = true
  /\ step (LGo 0) s'
     = Some (mkSystem (pool s') (set_thread 0 (GDispatcher c 0 0 DExit) (rt s'))).
Proof.
  destruct (close_cancels_every_goroutine 1 (Some 0) (preload [1] [])
              (one_worker_after [LStart CtxBackground] [1] []) []
              (one_worker_after [LStart CtxBackground; LClose] [1] [])
              0 (GDispatcher (CtxCancel CtxBackground 0) 0 0 DSelect))
    as (Hdone & Hdisp & _).
  - exists [LStart CtxBackground]. vm_compute. reflexivity.
  - reflexivity.
  - vm_compute. reflexivity.
  - reflexivity.
  - split; [exact Hdone|]. by apply Hdisp.
Defined.

(** One job can still be handed over after Close. *)
Lemma close_bounds_further_work_witness :
  let s := one_worker_after [LStart CtxBackground; LGo 0; LGo 0; LGo 0] [1; 2] [] in
  let s' := one_worker_after
              [LStart CtxBackground; LGo 0; LGo 0; LGo 0;
               LClose; LHandoff 0 1; LGo 0; LGo 1; LGo 1; LGo 1] [1; 2] [] in
  tally is_handoff (trace (rt s)) = 0
  /\ tally is_handoff (trace (rt s')) = 1
  /\ tally is_handoff (trace (rt s')) <= tally is_handoff (trace (rt s)) + 1
  /\ tally is_next (trace (rt s')) <= tally is_next (trace (rt s)) + 1.
Proof.
  split; [reflexivity|]. split; [reflexivity|].
  apply (close_bounds_further_work 1 (Some 0) (preload [1; 2] [])
           (one_worker_after [LStart CtxBackground; LGo 0; LGo 0; LGo 0] [1; 2] [])
           [LHandoff 0 1; LGo 0; LGo 1; LGo 1; LGo 1]).
  - exists [LStart CtxBackground; LGo 0; LGo 0; LGo 0]. vm_compute. reflexivity.
  - reflexivity.
  - vm_compute. reflexivity.
Defined.

(** ** Which queue is called, and in which order jobs are decided *)

Section Dispatching.
Context {World : Type} `{!Collaborators World}.
Implicit Types (r : LocalWorkers) (rt : Runtime World) (s : System World).

Lemma Start_trace ctx r rt :
  exists ms, trace (Start ctx r rt).2 = map EvLog ms ++ trace rt.
Proof.
  unfold Start. destruct (started r); [by exists []|].
  destruct (queue r) as [q|]; [|by exists []]. simpl.
  match goal with |- context [start_workers ?n ?w ?sz ?c ?ch ?q ?r] =>
    destruct (start_workers_logs n w sz c ch q r) as [ms ->] end.
  exists (ms ++ [LogRunning (size r)]). simpl. by rewrite map_app, <- app_assoc.
Qed.

(** An event a step adds is a log line, a cancellation or a handoff, or a
    call to the queue made by one of the goroutines with its own context
    and queue. *)
Lemma step_new_event l s s' e :
  step l s = Some s' -> e ∈ trace (rt s') ->
  e ∈ trace (rt s)
  \/ queue_call e = None
  \/ exists i g, threads (rt s) !! i = Some g
                 /\ queue_call e = Some (thread_ctx g, thread_queue g).
Proof.
  destruct l as [q|ctx| | |k|i|d w]; simpl.
  - intros [= <-]. by left.
  - destruct (ctx_wf ctx (flags (rt s))); [|done].
    destruct (Start_trace ctx (pool s) (rt s)) as [ms Htr].
    destruct (Start ctx (pool s) (rt s)) as [[err r'] rt']. intros [= <-]. simpl in *.
    rewrite Htr. intros He. apply elem_of_app in He as [He|He]; [|by left].
    right. left. apply list_elem_of_fmap in He as (m & -> & _). done.
  - unfold Close. destruct (canceler (pool s)); intros [= <-]; simpl; [|by left].
    rewrite elem_of_cons. intros [->|?]; [right; by left | by left].
  - intros [= <-]. by left.
  - destruct (canceler (pool s)); [destruct (k =? c); [done|]|];
      intros [= <-]; by left.
  - destruct (go_step i (rt s)) as [rt'|] eqn:Hg; [|done]. intros [= <-]. simpl.
    revert Hg. unfold go_step.
    destruct (threads (rt s) !! i) as [g|] eqn:Hi; [|done].
    destruct g as [c q out pc|c jobs q pc];
      [unfold dispatcher_step | unfold worker_step];
      destruct pc; repeat case_match; try done; intros [= <-]; simpl;
      rewrite ?elem_of_cons; try (by left);
      (intros [->|?]; [|by left]); right; simpl;
      first [by left | right; eexists i, _; split; [exact Hi | done]].
  - destruct (handoff d w (rt s)) as [rt'|] eqn:Hg; [|done]. intros [= <-]. simpl.
    revert Hg. unfold handoff. repeat case_match; try done. intros [= <-]. simpl.
    rewrite elem_of_cons. intros [->|?]; [right; by left | by left].
Qed.

Lemma addressed_step l s s' :
  wired s -> addressed s -> step l s = Some s' -> addressed s'.
Proof.
  intros Hw Ha Hl e c q He Hcall.
  destruct (pool_step l s s' Hl) as [_ Hp].
  destruct (step_new_event l s s' e Hl He) as [Hold|[Hnone|(i & g & Hi & Hg)]].
  - destruct (Ha e c q Hold Hcall) as (Hst & Hq & Hk). by rewrite (Hp Hst).
  - congruence.
  - destruct (wired_thread s i g Hw Hi) as (ctx & k & q' & ch & Hst & Hc & Hq & _ & Hwg).
    rewrite (Hp Hst). rewrite Hcall in Hg. injection Hg as -> ->.
    injection Hwg as _ Hctx Hqq _. repeat split; try done; [congruence|].
    by exists ctx, k.
Qed.

(** X5.  Every call of Next and of Complete that a pool made by
    NewLocalWorkers ever makes happens after Start, goes to the queue the
    pool holds (the one bound last before Start) and carries a context
    that the cancel function of the pool cancels.  A queue replaced by
    SetQueue is never called. *)
Theorem pool_calls_only_its_queue (numWorkers : Z) (q0 : option QueueRef) (w : World)
    s e c q :
  reachable (boot numWorkers q0 w) s ->
  e ∈ trace (rt s) ->
  queue_call e = Some (c, q) ->
  Started (pool s) = true
  /\ queue (pool s) = Some q
  /\ exists parent k, c = CtxCancel parent k /\ canceler (pool s) = Some k.
Proof.
  intros [ls Hls]. revert e c q.
  change (addressed s).
  assert (wired (boot numWorkers q0 w) /\ addressed (boot numWorkers q0 w)) as H0.
  { split; [apply wired_boot|]. intros e c q. unfold boot, NewLocalWorkers. simpl.
    destruct (numWorkers <=? 0)%Z; simpl.
    - rewrite list_elem_of_singleton. by intros ->.
    - by rewrite elem_of_nil. }
  revert H0 Hls. generalize (boot numWorkers q0 w) as s0.
  induction ls as [|l ls IH]; intros s0 [Hw Ha]; simpl.
  - by intros [= <-].
  - destruct (step l s0) as [s1|] eqn:Hl; [|done]. apply IH.
    split; [by apply (wired_step l s0) | by apply (addressed_step l s0)].
Qed.

End Dispatching.

Lemma pool_calls_only_its_queue_witness :
  let c := CtxCancel CtxBackground 0 in
  EvComplete c 0 3 ∈ trace (rt after_busy_day)
  /\ Started (pool after_busy_day) = true
  /\ queue (pool after_busy_day) = Some 0
  /\ exists parent k, c = CtxCancel parent k /\ canceler (pool after_busy_day) = Some k.
Proof.
  assert (EvComplete (CtxCancel CtxBackground 0) 0 3 ∈ trace (rt after_busy_day)) as He
    by (vm_compute; apply list_elem_of_further, list_elem_of_here).
  split; [exact He|].
  apply (pool_calls_only_its_queue 2 (Some 0) (preload [1; 2; 3] []) after_busy_day
           (EvComplete (CtxCancel CtxBackground 0) 0 3)).
  - exists busy_day. vm_compute. reflexivity.
  - exact He.
  - reflexivity.
Defined.

Section Order.
Context {World : Type} `{!Collaborators World}.
Implicit Types (r : LocalWorkers) (rt : Runtime World) (s : System World).

Lemma held_jobs_app ts1 ts2 : held_jobs (ts1 ++ ts2) = held_jobs ts1 ++ held_jobs ts2.
Proof. induction ts1 as [|g ts1 IH]; simpl; [done | by rewrite IH, app_assoc]. Qed.

Lemma held_jobs_insert ts i g g' :
  ts !! i = Some g -> held g' = held g -> held_jobs (<[i := g']> ts) = held_jobs ts.
Proof.
  revert i. induction ts as [|x ts IH]; intros [|i] Hi Hg; simpl in *; try done.
  - injection Hi as ->. by rewrite Hg.
  - by rewrite (IH i Hi Hg).
Qed.

Lemma held_jobs_workers ts n x :
  x.1.1.1 = false -> map wiring ts = replicate n x -> held_jobs ts = [].
Proof.
  intros Hx. revert n. induction ts as [|g ts IH]; intros [|n] Hts; simpl in *; try done.
  injection Hts as Hg Hts. rewrite (IH n Hts).
  destruct g as [c q out pc|c ch q pc]; simpl; [|done].
  rewrite <- Hg in Hx. done.
Qed.

(** In a started pool the dispatcher is goroutine 0 and the others hold
    no job of the queue. *)
Lemma wired_split s :
  wired s -> started (pool s) = true ->
  exists g rest, threads (rt s) = g :: rest
                 /\ is_dispatcher g = true /\ held_jobs rest = [].
Proof.
  unfold wired. intros Hw Hst. rewrite Hst in Hw.
  destruct Hw as (ctx & k & q & ch & _ & _ & _ & _ & Hts).
  destruct (threads (rt s)) as [|g rest]; [done|]. simpl in Hts.
  injection Hts as Hg _ _ _ Hrest. exists g, rest. repeat split; [done|].
  by apply (held_jobs_workers rest _ (false, CtxCancel ctx k, q, ch) eq_refl Hrest).
Qed.

Lemma start_workers_order n w sz ctx jobs q rt :
  yields (trace (start_workers n w sz ctx jobs q rt)) = yields (trace rt)
  /\ decisions (trace (start_workers n w sz ctx jobs q rt)) = decisions (trace rt).
Proof.
  revert w rt. induction n as [|n IH]; intros w rt; simpl; [done|].
  by destruct (IH (w + 1)%Z
                 (emit (EvLog (LogStartedWorker w sz)) (spawn (GWorker ctx jobs q WSelect) rt)))
    as [-> ->].
Qed.

Lemma in_turn_step l s s' : wired s -> in_turn s -> step l s = Some s' -> in_turn s'.
Proof.
  unfold in_turn. intros Hw Hin Hl.
  destruct l as [q|ctx| | |k|i|d w]; simpl in Hl.
  - by injection Hl as <-.
  - destruct (ctx_wf ctx (flags (rt s))); [|done].
    destruct (started (pool s)) eqn:Hst.
    { unfold Start in Hl. rewrite Hst in Hl. by injection Hl as <-. }
    destruct (queue (pool s)) as [q|] eqn:Hq.
    2:{ unfold Start in Hl. rewrite Hst, Hq in Hl. by injection Hl as <-. }
    destruct (Start_fresh ctx (pool s) (rt s) q Hst Hq) as (HS & _ & _ & _ & Hts).
    rewrite HS in Hl. injection Hl as <-. simpl. rewrite Hts, held_jobs_app. simpl.
    rewrite (held_jobs_workers (replicate _ _) (Z.to_nat (size (pool s)))
               (false, CtxCancel ctx (length (flags (rt s))), q, nchans (rt s)))
      by (done || by rewrite fmap_replicate).
    rewrite app_nil_r. unfold Start. rewrite Hst, Hq. simpl.
    match goal with |- context [start_workers ?n ?w ?sz ?c ?ch ?q ?r] =>
      destruct (start_workers_order n w sz c ch q r) as [-> ->] end.
    done.
  - unfold Close in Hl. destruct (canceler (pool s)); by injection Hl as <-.
  - by injection Hl as <-.
  - destruct (canceler (pool s)); [destruct (k =? c); [done|]|]; by injection Hl as <-.
  - destruct (go_step i (rt s)) as [rt'|] eqn:Hg; [|done]. injection Hl as <-.
    simpl. revert Hg. unfold go_step.
    destruct (threads (rt s) !! i) as [g|] eqn:Hi; [|done].
    destruct (wired_thread s i g Hw Hi) as (c0 & k & q0 & ch & Hst & _ & _ & _ & Hwg).
    destruct (wired_split s Hw Hst) as (g0 & rest & Hts & Hg0 & Hrest).
    destruct g as [c q out pc|c jobs q pc].
    + injection Hwg as Hi0 _ _ _. symmetry in Hi0.
      apply bool_decide_eq_true in Hi0 as ->.
      rewrite Hts in Hi, Hin. simpl in Hi, Hin. injection Hi as ->.
      rewrite Hrest, app_nil_r in Hin.
      unfold dispatcher_step. destruct pc; repeat case_match; try done;
        intros [= <-]; simpl in *; rewrite Hts; simpl; rewrite Hrest;
        simpl; congruence.
    + unfold worker_step. destruct pc; repeat case_match; try done;
        intros [= <-]; simpl; by rewrite (held_jobs_insert _ _ _ _ Hi).
  - destruct (handoff d w (rt s)) as [rt'|] eqn:Hg; [|done]. injection Hl as <-.
    simpl. revert Hg. unfold handoff.
    destruct (threads (rt s) !! d) as [[cd qd out [| | |j0|]|]|] eqn:Hd; try done.
    destruct (threads (rt s) !! w) as [[|cw jw qw []]|] eqn:Hw'; try done.
    destruct (out =? jw); [|done]. intros [= <-]. simpl.
    destruct (wired_thread s d _ Hw Hd) as (c0 & k & q0 & ch & Hst & _ & _ & _ & Hwg).
    destruct (wired_split s Hw Hst) as (g0 & rest & Hts & Hg0 & Hrest).
    injection Hwg as Hi0 _ _ _. symmetry in Hi0.
    apply bool_decide_eq_true in Hi0 as ->.
    destruct w as [|w]; [congruence|].
    rewrite Hts in Hd, Hw', Hin. simpl in Hd, Hw', Hin. injection Hd as ->.
    rewrite Hrest, app_nil_r in Hin. rewrite Hts. simpl.
    rewrite (held_jobs_insert rest w _ _ Hw') by done.
    rewrite Hrest. simpl in *. congruence.
Qed.

(** X6.  The dispatcher of a pool made by NewLocalWorkers decides the jobs
    one at a time and in the order Next returned them: the jobs yielded so
    far are the jobs skipped or handed over so far, in the same order,
    followed by at most one job that the dispatcher still holds. *)
Theorem jobs_are_decided_in_yield_order (numWorkers : Z) (q : option QueueRef)
    (w : World) s :
  reachable (boot numWorkers q w) s ->
  yields (trace (rt s)) = held_jobs (threads (rt s)) ++ decisions (trace (rt s))
  /\ length (held_jobs (threads (rt s))) <= 1.
Proof.
  intros [ls Hls].
  assert (wired s /\ in_turn s) as [Hw Hin].
  { assert (wired (boot numWorkers q w) /\ in_turn (boot numWorkers q w)) as H0.
    { split; [apply wired_boot|]. unfold in_turn, boot, NewLocalWorkers. simpl.
      by destruct (numWorkers <=? 0)%Z. }
    revert H0 Hls. generalize (boot numWorkers q w) as s0.
    induction ls as [|l ls IH]; intros s0 [Hw Ha]; simpl.
    - by intros [= <-].
    - destruct (step l s0) as [s1|] eqn:Hl; [|done]. apply IH.
      split; [by apply (wired_step l s0) | by apply (in_turn_step l s0)]. }
  split; [exact Hin|].
  destruct (started (pool s)) eqn:Hst.
  - destruct (wired_split s Hw Hst) as (g0 & rest & -> & _ & Hrest).
    simpl. rewrite Hrest, app_nil_r.
    destruct g0 as [c q0 out pc|c ch q0 pc]; [destruct pc|]; simpl; lia.
  - unfold wired in Hw. rewrite Hst in Hw. destruct Hw as [-> _]. simpl. lia.
Qed.

End Order.

Lemma jobs_are_decided_in_yield_order_witness :
  let s := one_worker_after
             [LStart CtxBackground; LGo 0; LGo 0; LGo 0; LHandoff 0 1;
              LGo 0; LGo 0; LGo 0; LGo 0; LGo 0; LGo 0;
              LGo 1; LGo 1; LHandoff 0 1; LGo 0; LGo 0]
             [4; 5; 6; 7] [5] in
  yields (trace (rt s)) = [7; 6; 5; 4]
  /\ (yields (trace (rt s)) = held_jobs (threads (rt s)) ++ decisions (trace (rt s))
      /\ length (held_jobs (threads (rt s))) <= 1).
Proof.
  split; [reflexivity|].
  apply (jobs_are_decided_in_yield_order 1 (Some 0) (preload [4; 5; 6; 7] [5])).
  exists [LStart CtxBackground; LGo 0; LGo 0; LGo 0; LHandoff 0 1;
          LGo 0; LGo 0; LGo 0; LGo 0; LGo 0; LGo 0;
          LGo 1; LGo 1; LHandoff 0 1; LGo 0; LGo 0].
  vm_compute. reflexivity.
Defined.

(** ** Start, restart and a send that nobody takes *)

Section StartAndLeak.
Context {World : Type} `{!Collaborators World}.
Implicit Types (r : LocalWorkers) (rt : Runtime World) (s : System World).

(** X7.  Start on an unstarted pool that holds a queue returns nil, marks
    the pool started and stores a new cancel function; it adds one
    dispatcher and as many workers as [size] says (none if [size] is not
    positive), all on one new channel, on the queue of the pool and on one
    context derived from the one given.  That context is done from the
    outset exactly when the one given already is. *)
Theorem Start_spawns_the_pool ctx r rt q :
  started r = false -> queue r = Some q ->
  let k := length (flags rt) in
  let workerCtx := CtxCancel ctx k in
  (Start ctx r rt).1 = (None, mkLocalWorkers (size r) true (Some q) (Some k))
  /\ threads (Start ctx r rt).2
     = threads rt
       ++ GDispatcher workerCtx q (nchans rt) DSelect
          :: replicate (Z.to_nat (size r)) (GWorker workerCtx (nchans rt) q WSelect)
  /\ nchans (Start ctx r rt).2 = S (nchans rt)
  /\ world (Start ctx r rt).2 = world rt
  /\ ctx_done workerCtx (flags (Start ctx r rt).2) = ctx_done ctx (flags rt).
Proof.
  intros Hst Hq k workerCtx.
  destruct (Start_fresh ctx r rt q Hst Hq) as (HS & Hfl & Hnc & Hw & Hts).
  rewrite Hfl, Hnc, Hw, Hts. repeat split; try done.
  - by rewrite HS.
  - unfold workerCtx, k. simpl. rewrite list_lookup_middle by done. simpl.
    apply ctx_done_alloc.
Qed.

(** X8.  A pool cannot be started again: after a Start that returned nil
    and a Close, Start still returns nil but spawns nothing, makes no
    channel and no new context, and leaves the stored cancel function,
    which has been called, in place. *)
Theorem closed_pool_does_not_restart ctx ctx' r rt r1 rt1 :
  Start ctx r rt = (None, r1, rt1) ->
  Start ctx' (Close r1 rt1).1 (Close r1 rt1).2 = (None, r1, (Close r1 rt1).2)
  /\ threads (Start ctx' (Close r1 rt1).1 (Close r1 rt1).2).2 = threads rt1
  /\ nchans (Start ctx' (Close r1 rt1).1 (Close r1 rt1).2).2 = nchans rt1
  /\ length (flags (Start ctx' (Close r1 rt1).1 (Close r1 rt1).2).2) = length (flags rt1).
Proof.
  intros HS. pose proof (Start_result ctx r rt) as Hres. rewrite HS in Hres.
  simpl in Hres.
  assert ((Close r1 rt1).1 = r1) as Hr by (unfold Close; by destruct (canceler r1)).
  rewrite Hr. unfold Start. rewrite Hres. simpl.
  unfold Close. destruct (canceler r1); simpl; repeat split; try done.
  by rewrite length_insert.
Qed.

Ltac life_signs Hi := pose proof (tally_lookup_le alive _ _ _ Hi).

Lemma stranded_step l s s' d ctx q out j :
  started (pool s) = true ->
  threads (rt s) !! d = Some (GDispatcher ctx q out (DSend j)) ->
  tally alive (threads (rt s)) = 0 ->
  step l s = Some s' ->
  started (pool s') = true
  /\ threads (rt s') !! d = Some (GDispatcher ctx q out (DSend j))
  /\ tally alive (threads (rt s')) = 0
  /\ tally is_handoff (trace (rt s')) = tally is_handoff (trace (rt s)).
Proof.
  intros Hst Hd Hal Hl.
  destruct (pool_step l s s' Hl) as [_ Hp]. rewrite (Hp Hst). split; [done|].
  destruct l as [q0|c| | |k|i|d' w]; simpl in Hl.
  - by injection Hl as <-.
  - destruct (ctx_wf c (flags (rt s))); [|done].
    unfold Start in Hl. rewrite Hst in Hl. by injection Hl as <-.
  - unfold Close in Hl. destruct (canceler (pool s)); by injection Hl as <-.
  - by injection Hl as <-.
  - destruct (canceler (pool s)); [destruct (k =? c); [done|]|]; by injection Hl as <-.
  - destruct (go_step i (rt s)) as [rt'|] eqn:Hg; [|done]. injection Hl as <-.
    simpl. revert Hg. unfold go_step.
    destruct (threads (rt s) !! i) as [g|] eqn:Hi; [|done]. life_signs Hi.
    assert (forall g', i <> d -> <[i := g']> (threads (rt s)) !! d
                                 = Some (GDispatcher ctx q out (DSend j))) as Hkeep
      by (intros; by rewrite list_lookup_insert_ne).
    destruct g as [c q0 out0 pc|c jobs q0 pc];
      [unfold dispatcher_step | unfold worker_step].
    + destruct (decide (i = d)) as [->|Hne].
      { assert (pc = DSend j) as -> by congruence. done. }
      destruct pc; repeat case_match; try done; intros [= <-]; simpl;
        rewrite (tally_insert _ _ _ _ _ Hi); unfold b2n in *; simpl in *;
        (split; [by apply Hkeep|]); split; lia.
    + destruct pc; simpl in *; unfold b2n in *; simpl in *; try lia. done.
  - destruct (handoff d' w (rt s)) as [rt'|] eqn:Hg; [|done]. exfalso.
    revert Hg. unfold handoff.
    destruct (threads (rt s) !! d') as [[cd qd out0 [| | |j0|]|]|]; try done.
    destruct (threads (rt s) !! w) as [[|cw jw qw []]|] eqn:Hw; try done.
    life_signs Hw. unfold b2n in *. simpl in *. lia.
Qed.

(** X9.  The send of the dispatcher is not guarded by the context.  If
    the dispatcher of a started pool is blocked sending a job and all
    workers have returned, then whatever happens next (Close, Start,
    SetQueue, cancellations) the dispatcher stays blocked in that send,
    no worker comes back and the job is never handed over. *)
Theorem blocked_dispatcher_is_stranded ls s s' d ctx q out j :
  Started (pool s) = true ->
  threads (rt s) !! d = Some (GDispatcher ctx q out (DSend j)) ->
  tally alive (threads (rt s)) = 0 ->
  exec ls s = Some s' ->
  threads (rt s') !! d = Some (GDispatcher ctx q out (DSend j))
  /\ tally alive (threads (rt s')) = 0
  /\ tally is_handoff (trace (rt s')) = tally is_handoff (trace (rt s))
  /\ step (LGo d) s' = None
  /\ (forall w, step (LHandoff d w) s' = None).
Proof.
  unfold Started. revert s. induction ls as [|l ls IH]; intros s Hst Hd Hal; simpl.
  - intros [= <-]. repeat split; try done.
    + simpl. unfold go_step. by rewrite Hd.
    + intros w. simpl. unfold handoff. rewrite Hd.
      destruct (threads (rt s) !! w) as [[|cw jw qw []]|] eqn:Hw; try done.
      pose proof (tally_lookup_le alive _ _ _ Hw). unfold b2n in *. simpl in *. lia.
  - destruct (step l s) as [s1|] eqn:Hl; [|done]. intros He.
    destruct (stranded_step l s s1 d ctx q out j Hst Hd Hal Hl) as (Hst1 & Hd1 & Hal1 & Hh1).
    destruct (IH s1 Hst1 Hd1 Hal1 He) as (? & ? & Hh & ? & ?).
    repeat split; try done. by rewrite Hh.
Qed.


End StartAndLeak.

Lemma Start_spawns_the_pool_witness :
  let r := mkLocalWorkers 3 false (Some 4) None in
  let rt0 := mkRuntime [true] 0 [] tt [] in
  let parent := CtxCancel CtxBackground 0 in
  (Start parent r rt0).1 = (None, mkLocalWorkers 3 true (Some 4) (Some 1))
  /\ threads (Start parent r rt0).2
     = [] ++ GDispatcher (CtxCancel parent 1) 4 0 DSelect
          :: replicate (Z.to_nat 3) (GWorker (CtxCancel parent 1) 0 4 WSelect)
  /\ nchans (Start parent r rt0).2 = 1
  /\ world (Start parent r rt0).2 = tt
  /\ ctx_done (CtxCancel parent 1) (flags (Start parent r rt0).2) = true.
Proof.
  apply (Start_spawns_the_pool (CtxCancel CtxBackground 0)
           (mkLocalWorkers 3 false (Some 4) None) (mkRuntime [true] 0 [] tt []) 4).
  - reflexivity.
  - reflexivity.
Defined.

Lemma closed_pool_does_not_restart_witness :
  let r := mkLocalWorkers 2 false (Some 0) None in
  let r1 := (Start CtxBackground r (fresh tt)).1.2 in
  let rt1 := (Start CtxBackground r (fresh tt)).2 in
  Start CtxBackground (Close r1 rt1).1 (Close r1 rt1).2 = (None, r1, (Close r1 rt1).2)
  /\ threads (Start CtxBackground (Close r1 rt1).1 (Close r1 rt1).2).2 = threads rt1
  /\ nchans (Start CtxBackground (Close r1 rt1).1 (Close r1 rt1).2).2 = nchans rt1
  /\ length (flags (Start CtxBackground (Close r1 rt1).1 (Close r1 rt1).2).2)
     = length (flags rt1).
Proof.
  apply (closed_pool_does_not_restart CtxBackground CtxBackground
           (mkLocalWorkers 2 false (Some 0) None) (fresh tt)).
  vm_compute. reflexivity.
Defined.

Lemma blocked_dispatcher_is_stranded_witness :
  let s := one_worker_after
             [LStart CtxBackground; LGo 0; LGo 0; LGo 0; LClose; LGo 1] [1] [] in
  let s' := one_worker_after
              [LStart CtxBackground; LGo 0; LGo 0; LGo 0; LClose; LGo 1;
               LClose; LStart CtxBackground; LSetQueue (Some 3); LEnvWithCancel]
              [1] [] in
  let ctx := CtxCancel CtxBackground 0 in
  ctx_done ctx (flags (rt s)) = true
  /\ threads (rt s') !! 0 = Some (GDispatcher ctx 0 0 (DSend 1))
  /\ tally alive (threads (rt s')) = 0
  /\ tally is_handoff (trace (rt s')) = tally is_handoff (trace (rt s))
  /\ step (LGo 0) s' = None
  /\ (forall w, step (LHandoff 0 w) s' = None).
Proof.
  split; [reflexivity|].
  apply (blocked_dispatcher_is_stranded
           [LClose; LStart CtxBackground; LSetQueue (Some 3); LEnvWithCancel]
           (one_worker_after
              [LStart CtxBackground; LGo 0; LGo 0; LGo 0; LClose; LGo 1] [1] [])).
  - reflexivity.
  - reflexivity.
  - reflexivity.
  - vm_compute. reflexivity.
Defined.


Lemma pool_census_witness :
  let s := after_busy_day in
  size (pool s) = Z.max 1 2
  /\ length (threads (rt s))
     = (if Started (pool s) then S (Z.to_nat (size (pool s))) else 0)
  /\ tally is_dispatcher (threads (rt s)) = (if Started (pool s) then 1 else 0)
  /\ tally busy (threads (rt s)) <= Z.to_nat (size (pool s)).
Proof.
  apply (pool_census 2 (Some 0) (preload [1; 2; 3] []) after_busy_day).
  exists busy_day. vm_compute. reflexivity.
Defined.

Lemma all_jobs_can_be_served_witness :
  exists s,
    exec (serve_all 3) (boot 5 (Some 0) (preload [8; 3; 5] [])) = Some s
    /\ pending (world (rt s)) = []
    /\ forall j, j ∈ [8; 3; 5] ->
         tally (handed j) (trace (rt s)) = 1
         /\ tally (ran j) (trace (rt s)) = 1
         /\ tally (completed j) (trace (rt s)) = 1.
Proof.
  apply (all_jobs_can_be_served 5 0 [8; 3; 5]).
  apply (bool_decide_unpack _). vm_compute. exact I.
Defined.

(** ** Goroutines return only on cancellation *)

Section Liveness.
Context {World : Type} `{!Collaborators World}.
Implicit Types (r : LocalWorkers) (rt : Runtime World) (s : System World).

Lemma exits_justified_step l s s' :
  exits_justified s -> step l s = Some s' -> exits_justified s'.
Proof.
  intros Hex Hl i g Hi Hret.
  assert (forall k, flags (rt s) !! k = Some true -> flags (rt s') !! k = Some true)
    as Hfl by (intros k; by apply (flag_step l)).
  assert (threads (rt s) !! i = Some g ->
          ctx_done (thread_ctx g) (flags (rt s')) = true) as Hold.
  { intros Hi0. apply (ctx_done_mono _ (flags (rt s))); [done|]. by apply (Hex i). }
  destruct l as [q|ctx| | |k|j|d w]; simpl in Hl.
  - injection Hl as <-. by apply Hold.
  - destruct (ctx_wf ctx (flags (rt s))); [|done].
    destruct (started (pool s)) eqn:Hst.
    { unfold Start in Hl. rewrite Hst in Hl. injection Hl as <-. by apply Hold. }
    destruct (queue (pool s)) as [q|] eqn:Hq.
    2:{ unfold Start in Hl. rewrite Hst, Hq in Hl. injection Hl as <-. by apply Hold. }
    destruct (Start_fresh ctx (pool s) (rt s) q Hst Hq) as (HS & _ & _ & _ & Hts).
    rewrite HS in Hl. injection Hl as <-. simpl in *. rewrite Hts in Hi.
    apply lookup_app_Some in Hi as [Hi|[_ Hi]]; [by apply Hold|].
    destruct (i - length (threads (rt s))) as [|n]; simpl in Hi.
    + injection Hi as <-. done.
    + apply lookup_replicate in Hi as [-> _]. done.
  - unfold Close in Hl. destruct (canceler (pool s)); injection Hl as <-; by apply Hold.
  - injection Hl as <-. by apply Hold.
  - destruct (canceler (pool s)); [destruct (k =? c); [done|]|];
      injection Hl as <-; by apply Hold.
  - destruct (go_step j (rt s)) as [rt'|] eqn:Hg; [|done]. injection Hl as <-.
    simpl in *. destruct (go_step_frame j _ _ Hg) as [Hf _]. rewrite Hf.
    revert Hg Hi. unfold go_step.
    destruct (threads (rt s) !! j) as [g0|] eqn:Hj; [|done].
    destruct (decide (i = j)) as [->|Hne].
    + assert (j < length (threads (rt s))) by by eapply lookup_lt_Some.
      destruct g0 as [c q out pc|c jobs q pc];
        [unfold dispatcher_step | unfold worker_step];
        destruct pc; repeat case_match; try done; intros [= <-]; simpl;
        rewrite list_lookup_insert_eq by done; intros [= <-]; done.
    + destruct g0 as [c q out pc|c jobs q pc];
        [unfold dispatcher_step | unfold worker_step];
        destruct pc; repeat case_match; try done; intros [= <-]; simpl;
        rewrite list_lookup_insert_ne by done; intros Hi0; by apply (Hex i).
  - destruct (handoff d w (rt s)) as [rt'|] eqn:Hg; [|done]. injection Hl as <-.
    simpl in *. destruct (handoff_frame d w _ _ Hg) as (Hf & _ & _). rewrite Hf.
    revert Hg Hi. unfold handoff.
    destruct (threads (rt s) !! d) as [[cd qd out [| | |j0|]|]|] eqn:Hd; try done.
    destruct (threads (rt s) !! w) as [[|cw jw qw []]|] eqn:Hw; try done.
    destruct (out =? jw); [|done]. intros [= <-]. simpl.
    assert (d <> w) by (intros ->; congruence).
    assert (d < length (threads (rt s))) by by eapply lookup_lt_Some.
    assert (w < length (threads (rt s))) by by eapply lookup_lt_Some.
    destruct (decide (i = d)) as [->|Hnd].
    { rewrite list_lookup_insert_eq by by rewrite length_insert.
      intros [= <-]. done. }
    rewrite list_lookup_insert_ne by done.
    destruct (decide (i = w)) as [->|Hnw].
    { rewrite list_lookup_insert_eq by done. intros [= <-]. done. }
    rewrite list_lookup_insert_ne by done. intros Hi0. by apply (Hex i).
Qed.

Lemma exits_justified_exec ls s s' :
  exits_justified s -> exec ls s = Some s' -> exits_justified s'.
Proof.
  revert s. induction ls as [|l ls IH]; intros s Hs; simpl.
  - by intros [= <-].
  - destruct (step l s) as [s1|] eqn:Hl; [|done]. apply IH.
    by apply (exits_justified_step l s).
Qed.

Lemma exits_justified_reachable (numWorkers : Z) (q : option QueueRef) (w : World) s :
  reachable (boot numWorkers q w) s -> exits_justified s.
Proof.
  intros [ls Hls]. apply (exits_justified_exec ls (boot numWorkers q w) s); [|done].
  intros i0 g0. unfold boot, NewLocalWorkers. simpl.
  by destruct (numWorkers <=? 0)%Z.
Qed.

(** X12.  The goroutines of a pool return for one reason only: in every
    state the pool can reach, a dispatcher or worker that has returned
    has a context that is done.  While the context is not done, all of
    them are still in their loops. *)
Theorem goroutines_return_only_when_cancelled (numWorkers : Z) (q : option QueueRef)
    (w : World) s i g :
  reachable (boot numWorkers q w) s ->
  threads (rt s) !! i = Some g ->
  returned g = true ->
  ctx_done (thread_ctx g) (flags (rt s)) = true.
Proof.
  intros Hr. by apply (exits_justified_reachable numWorkers q w s Hr).
Qed.


End Liveness.

Lemma goroutines_return_only_when_cancelled_witness :
  let ctx := CtxCancel CtxBackground 0 in
  threads (rt after_busy_day) !! 0 = Some (GDispatcher ctx 0 0 DExit)
  /\ ctx_done ctx (flags (rt after_busy_day)) = true.
Proof.
  split; [reflexivity|].
  apply (goroutines_return_only_when_cancelled 2 (Some 0) (preload [1; 2; 3] [])
           after_busy_day 0 (GDispatcher (CtxCancel CtxBackground 0) 0 0 DExit)).
  - exists busy_day. vm_compute. reflexivity.
  - reflexivity.
  - reflexivity.
Defined.


(** ** A worker that holds a job runs it and reports it *)

Section Completion.
Context {World : Type} `{!Collaborators World}.
Implicit Types (r : LocalWorkers) (rt : Runtime World) (s : System World).

Lemma exec_cat (ls1 ls2 : list Label) s s1 :
  exec ls1 s = Some s1 -> exec (ls1 ++ ls2) s = exec ls2 s1.
Proof.
  revert s. induction ls1 as [|l ls1 IH]; intros s; simpl.
  - by intros [= <-].
  - destruct (step l s) as [s'|]; [apply IH | done].
Qed.

(** Events are never taken back. *)
Lemma tally_trace_step (p : Event -> bool) l s s' :
  step l s = Some s' -> tally p (trace (rt s)) <= tally p (trace (rt s')).
Proof.
  intros Hl. destruct (step_trace l s s' Hl) as [[e ->]|[ms ->]].
  - simpl. lia.
  - rewrite tally_app. lia.
Qed.

Lemma tally_trace_exec (p : Event -> bool) ls s s' :
  exec ls s = Some s' -> tally p (trace (rt s)) <= tally p (trace (rt s')).
Proof.
  revert s. induction ls as [|l ls IH]; intros s; simpl.
  - intros [= <-]. lia.
  - destruct (step l s) as [s1|] eqn:Hl; [|done]. intros He.
    pose proof (tally_trace_step p l s s1 Hl). specialize (IH s1 He). lia.
Qed.

Lemma is_go_true i l : is_go i l = true -> l = LGo i.
Proof. destruct l; simpl; try done. by intros ->%Nat.eqb_eq. Qed.

Lemma is_go_false i l : is_go i l = false -> l <> LGo i.
Proof. intros Hl ->. simpl in Hl. by rewrite Nat.eqb_refl in Hl. Qed.

(** The step of a worker that has received [j]: Run of [j]. *)
Lemma run_step i c ch q0 j s :
  threads (rt s) !! i = Some (GWorker c ch q0 (WRun j)) ->
  step (LGo i) s
  = Some (mkSystem (pool s)
            (set_thread i (GWorker c ch q0 (WComplete j))
               (emit (EvRun j) (set_world (job_run j (world (rt s))) (rt s))))).
Proof. intros Hi. simpl. unfold go_step. by rewrite Hi. Qed.

(** The step of a worker whose Run of [j] has returned: Complete of [j]. *)
Lemma complete_step i c ch q0 j s :
  threads (rt s) !! i = Some (GWorker c ch q0 (WComplete j)) ->
  step (LGo i) s
  = Some (mkSystem (pool s)
            (set_thread i (GWorker c ch q0 WSelect)
               (emit (EvComplete c q0 j)
                  (set_world (q_complete q0 (ctx_done c (flags (rt s))) j (world (rt s)))
                     (rt s))))).
Proof. intros Hi. simpl. unfold go_step. by rewrite Hi. Qed.

(** A worker about to report [j] has reported it by the time it has taken
    a step, whatever else happened in between. *)
Lemma worker_reports_when_scheduled i c ch q0 j ls : forall s s',
  threads (rt s) !! i = Some (GWorker c ch q0 (WComplete j)) ->
  exec ls s = Some s' ->
  1 <= tally (is_go i) ls ->
  tally (completed j) (trace (rt s)) + 1 <= tally (completed j) (trace (rt s')).
Proof.
  induction ls as [|l ls IH]; intros s s' Hi; simpl; [lia|].
  destruct (step l s) as [s1|] eqn:Hl; [|done]. intros He Hn.
  destruct (is_go i l) eqn:Hgo.
  - apply is_go_true in Hgo as ->. rewrite (complete_step i c ch q0 j s Hi) in Hl.
    injection Hl as <-. pose proof (tally_trace_exec (completed j) ls _ s' He) as Hm.
    simpl in Hm. rewrite Nat.eqb_refl in Hm. simpl in Hm. lia.
  - apply is_go_false in Hgo.
    destruct (busy_worker_undisturbed i c ch q0 (WComplete j) s Hi) as [_ Hkeep]; [done|].
    pose proof (tally_trace_step (completed j) l s s1 Hl).
    specialize (IH s1 s' (Hkeep l s1 Hl Hgo) He). simpl in Hn. lia.
Qed.

(** A worker that has received [j] has run it by the time it has taken a
    step and reported it by the time it has taken two, whatever else
    happened in between. *)
Lemma worker_runs_when_scheduled i c ch q0 j ls : forall s s',
  threads (rt s) !! i = Some (GWorker c ch q0 (WRun j)) ->
  exec ls s = Some s' ->
  (1 <= tally (is_go i) ls ->
   tally (ran j) (trace (rt s)) + 1 <= tally (ran j) (trace (rt s')))
  /\ (2 <= tally (is_go i) ls ->
      tally (completed j) (trace (rt s)) + 1 <= tally (completed j) (trace (rt s'))).
Proof.
  induction ls as [|l ls IH]; intros s s' Hi; simpl; [lia|].
  destruct (step l s) as [s1|] eqn:Hl; [|done]. intros He.
  destruct (is_go i l) eqn:Hgo.
  - apply is_go_true in Hgo as ->. rewrite (run_step i c ch q0 j s Hi) in Hl.
    injection Hl as <-. split; intros Hn.
    + pose proof (tally_trace_exec (ran j) ls _ s' He) as Hm.
      simpl in Hm. rewrite Nat.eqb_refl in Hm. simpl in Hm. lia.
    + assert (i < length (threads (rt s))) by by eapply lookup_lt_Some.
      match type of He with exec ls ?s1 = _ =>
        pose proof (worker_reports_when_scheduled i c ch q0 j ls s1 s') as Hrep end.
      simpl in Hrep. rewrite list_lookup_insert_eq in Hrep by done.
      specialize (Hrep eq_refl He). simpl in Hn. lia.
  - apply is_go_false in Hgo.
    destruct (busy_worker_undisturbed i c ch q0 (WRun j) s Hi) as [_ Hkeep]; [done|].
    pose proof (tally_trace_step (ran j) l s s1 Hl).
    pose proof (tally_trace_step (completed j) l s s1 Hl).
    destruct (IH s1 s' (Hkeep l s1 Hl Hgo) He) as [IH1 IH2]. simpl.
    split; intros Hn; [specialize (IH1 Hn) | specialize (IH2 Hn)]; lia.
Qed.

Lemma busy_index (ts : list Goroutine) :
  0 < tally busy ts -> exists i g, ts !! i = Some g /\ busy g = true.
Proof.
  induction ts as [|g ts IH]; simpl; [lia|].
  destruct (busy g) eqn:Hg.
  - intros _. by exists 0, g.
  - simpl. intros Hpos. destruct (IH Hpos) as (i & g' & Hi & Hg').
    by exists (S i), g'.
Qed.

(** A busy worker gets done with its job in one or two steps of its own,
    and no job is handed over meanwhile. *)
Lemma drain_one s i g :
  threads (rt s) !! i = Some g -> busy g = true ->
  exists ls s',
    exec ls s = Some s'
    /\ Forall (fun l => exists i', l = LGo i') ls
    /\ S (tally busy (threads (rt s'))) = tally busy (threads (rt s))
    /\ forall j, tally (handed j) (trace (rt s')) = tally (handed j) (trace (rt s)).
Proof.
  intros Hi Hg. pose proof (tally_lookup_le busy _ _ _ Hi) as Hle.
  assert (i < length (threads (rt s))) as Hlen by by eapply lookup_lt_Some.
  destruct g as [c q0 out pc|c ch q0 [|j|j|]]; try done.
  - exists [LGo i; LGo i]. eexists. cbn [exec].
    rewrite (run_step i c ch q0 j s Hi).
    rewrite (complete_step i c ch q0 j).
    2:{ simpl. by apply list_lookup_insert_eq. }
    split; [reflexivity|]. split; [repeat constructor; by eexists|]. simpl.
    rewrite list_insert_insert_eq, (tally_insert _ _ _ _ _ Hi).
    unfold b2n in *. simpl in *. split; [lia | done].
  - exists [LGo i]. eexists. cbn [exec].
    rewrite (complete_step i c ch q0 j s Hi).
    split; [reflexivity|]. split; [repeat constructor; by eexists|]. simpl.
    rewrite (tally_insert _ _ _ _ _ Hi).
    unfold b2n in *. simpl in *. split; [lia | done].
Qed.

(** From any state the busy workers can finish what they hold, by steps of
    their own alone. *)
Lemma drain n : forall s,
  tally busy (threads (rt s)) = n ->
  exists ls s',
    exec ls s = Some s'
    /\ Forall (fun l => exists i', l = LGo i') ls
    /\ tally busy (threads (rt s')) = 0
    /\ forall j, tally (handed j) (trace (rt s')) = tally (handed j) (trace (rt s)).
Proof.
  induction n as [|n IH]; intros s Hn.
  - exists [], s. by repeat split.
  - destruct (busy_index (threads (rt s))) as (i & g & Hi & Hg); [lia|].
    destruct (drain_one s i g Hi Hg) as (ls1 & s1 & He1 & Hgo1 & Hb1 & Hh1).
    destruct (IH s1) as (ls2 & s2 & He2 & Hgo2 & Hb2 & Hh2); [lia|].
    exists (ls1 ++ ls2), s2. rewrite (exec_cat ls1 ls2 s s1 He1).
    repeat split; try done.
    + by apply Forall_app.
    + intros j. by rewrite Hh2, Hh1.
Qed.

End Completion.

(** ** The jobs of a pre-loaded queue are executed once *)

Lemma once_reachable (W : Z) (q : QueueRef) (jobs already : list Job)
    (ls : list Label) (s : System Preloaded) (j : Job) :
  NoDup jobs ->
  exec ls (boot W (Some q) (preload jobs already)) = Some s ->
  balanced j (rt s) /\ orderly j (trace (rt s)) /\ tally (handed j) (trace (rt s)) <= 1.
Proof.
  intros Hnd Hls.
  set (s0 := boot W (Some q) (preload jobs already)) in *.
  assert (balanced j (rt s0) /\ orderly j (trace (rt s0))
          /\ supply j (rt s0) = tally (Nat.eqb j) jobs) as (Hb0 & Ho0 & Hs0).
  { unfold s0, boot, NewLocalWorkers, balanced, supply. simpl.
    destruct (W <=? 0)%Z; simpl; unfold in_order; simpl; repeat split; lia. }
  pose proof (balanced_exec j ls s0 s Hls Hb0) as Hb.
  pose proof (orderly_exec j ls s0 s Hls Hb0 Ho0) as Ho.
  pose proof (supply_exec j ls s0 s Hls) as Hs. rewrite Hs0 in Hs.
  pose proof (tally_NoDup j jobs Hnd) as Hle. unfold supply in Hs.
  split; [done|]. split; [done|]. destruct Hb as (Hy & _ & _). lia.
Qed.

(** C1.  A queue is pre-loaded with distinct jobs and a pool of any
    configured size is built on it.  In every state the system can reach,
    under any interleaving of the goroutines, of calls of SetQueue, Start
    and Close and of cancellations:
    - each job [j] is handed to a worker at most once; every handoff is
      matched by one Run, in progress or done; every finished Run is
      matched by one call of Complete, pending or made; these events
      happened in this order at every moment of the past; so once no
      worker holds [j], a dispatched [j] has been run exactly once and
      reported complete exactly once;
    - a worker holding [j] is never blocked, and its step is the Run of
      [j], with the effect of Run on the collaborators, and then the call
      of Complete on its queue with its context and [j];
    - however the run goes on, as soon as the worker that holds [j] has
      taken two steps (one if Run had returned), [j] has been run exactly
      once and reported complete exactly once;
    - the workers can always finish what they hold by steps of their own:
      a state is then reached in which no worker holds a job and every
      job that was handed over has been run once and reported once. *)
Theorem C1_dispatched_job_runs_once (W : Z) (q : QueueRef) (jobs already : list Job)
    (s : System Preloaded) (j : Job) :
  NoDup jobs ->
  reachable (boot W (Some q) (preload jobs already)) s ->
  let ts := threads (rt s) in
  let tr := trace (rt s) in
  tally (handed j) tr <= 1
  /\ tally (handed j) tr = tally (running j) ts + tally (ran j) tr
  /\ tally (ran j) tr = tally (reporting j) ts + tally (completed j) tr
  /\ orderly j tr
  /\ (forall i g, ts !! i = Some g -> running j g || reporting j g = true ->
       is_Some (step (LGo i) s))
  /\ (tally (running j) ts = 0 -> tally (reporting j) ts = 0 ->
       tally (handed j) tr = 1 ->
       tally (ran j) tr = 1 /\ tally (completed j) tr = 1)
  /\ (forall i c ch q0, ts !! i = Some (GWorker c ch q0 (WRun j)) ->
       step (LGo i) s
       = Some (mkSystem (pool s)
                 (set_thread i (GWorker c ch q0 (WComplete j))
                    (emit (EvRun j) (set_world (job_run j (world (rt s))) (rt s))))))
  /\ (forall i c ch q0, ts !! i = Some (GWorker c ch q0 (WComplete j)) ->
       step (LGo i) s
       = Some (mkSystem (pool s)
                 (set_thread i (GWorker c ch q0 WSelect)
                    (emit (EvComplete c q0 j)
                       (set_world
                          (q_complete q0 (ctx_done c (flags (rt s))) j (world (rt s)))
                          (rt s))))))
  /\ (forall i c ch q0 ls s',
       ts !! i = Some (GWorker c ch q0 (WRun j)) ->
       exec ls s = Some s' -> 2 <= tally (is_go i) ls ->
       tally (ran j) (trace (rt s')) = 1 /\ tally (completed j) (trace (rt s')) = 1)
  /\ (forall i c ch q0 ls s',
       ts !! i = Some (GWorker c ch q0 (WComplete j)) ->
       exec ls s = Some s' -> 1 <= tally (is_go i) ls ->
       tally (ran j) (trace (rt s')) = 1 /\ tally (completed j) (trace (rt s')) = 1)
  /\ (exists ls s',
       exec ls s = Some s'
       /\ Forall (fun l => exists i, l = LGo i) ls
       /\ tally busy (threads (rt s')) = 0
       /\ forall j',
            tally (handed j') (trace (rt s')) = tally (handed j') tr
            /\ tally (handed j') tr <= 1
            /\ tally (ran j') (trace (rt s')) = tally (handed j') tr
            /\ tally (completed j') (trace (rt s')) = tally (handed j') tr).
Proof.
  intros Hnd [ls0 Hls0] ts tr.
  destruct (once_reachable W q jobs already ls0 s j Hnd Hls0) as ((Hy & Hh & Hr) & Ho & Hle).
  fold ts tr in Hy, Hh, Hr, Ho, Hle.
  assert (forall ls s' j', exec ls s = Some s' ->
            balanced j' (rt s') /\ tally (handed j') (trace (rt s')) <= 1) as Hlater.
  { intros ls s' j' He.
    destruct (once_reachable W q jobs already (ls0 ++ ls) s' j' Hnd) as (Hb & _ & Hl).
    - by rewrite (exec_cat ls0 ls _ s Hls0).
    - done. }
  split; [done|]. split; [done|]. split; [done|]. split; [done|].
  split. { intros i g Hi Hg. by apply (busy_worker_steps j i g). }
  split. { intros. lia. }
  split. { intros i c ch q0 Hi. by apply run_step. }
  split. { intros i c ch q0 Hi. by apply complete_step. }
  split.
  { intros i c ch q0 ls s' Hi He Hn.
    destruct (worker_runs_when_scheduled i c ch q0 j ls s s' Hi He) as [H1 H2].
    assert (1 <= tally (is_go i) ls) as Hn1 by lia.
    specialize (H1 Hn1). specialize (H2 Hn).
    destruct (Hlater ls s' j He) as ((_ & Hh' & Hr') & Hle'). lia. }
  split.
  { intros i c ch q0 ls s' Hi He Hn.
    pose proof (worker_reports_when_scheduled i c ch q0 j ls s s' Hi He Hn) as H1.
    destruct (Hlater ls s' j He) as ((_ & Hh' & Hr') & Hle'). lia. }
  destruct (drain (tally busy ts) s eq_refl) as (ls & s' & He & Hgo & Hb & Hsame).
  exists ls, s'. repeat split; try done.
  - by destruct (Hlater [] s j' eq_refl).
  - destruct (Hlater ls s' j' He) as ((_ & Hh' & _) & _).
    pose proof (tally_mono (running j') busy (threads (rt s'))) as Hrun.
    rewrite <- Hsame.
    assert (tally (running j') (threads (rt s')) <= 0) as H0.
    { rewrite <- Hb. apply Hrun. intros [c q0 out pc|c ch q0 pc]; simpl; [done|].
      by destruct pc. }
    lia.
  - destruct (Hlater ls s' j' He) as ((_ & Hh' & Hr') & _).
    pose proof (tally_mono (running j') busy (threads (rt s'))) as Hrun.
    pose proof (tally_mono (reporting j') busy (threads (rt s'))) as Hrep.
    rewrite <- Hsame.
    assert (tally (running j') (threads (rt s')) <= 0) as H0.
    { rewrite <- Hb. apply Hrun. intros [c q0 out pc|c ch q0 pc]; simpl; [done|].
      by destruct pc. }
    assert (tally (reporting j') (threads (rt s')) <= 0) as H1.
    { rewrite <- Hb. apply Hrep. intros [c q0 out pc|c ch q0 pc]; simpl; [done|].
      by destruct pc. }
    lia.
Qed.

Lemma C1_witness :
  let s := one_worker_after
             [LStart CtxBackground; LGo 0; LGo 0; LGo 0; LHandoff 0 1] [1; 2] [] in
  let c := CtxCancel CtxBackground 0 in
  threads (rt s) !! 1 = Some (GWorker c 0 0 (WRun 1))
  /\ tally (handed 1) (trace (rt s)) = 1
  /\ tally (ran 1) (trace (rt s)) = 0
  /\ tally (handed 1) (trace (rt s))
     = tally (running 1) (threads (rt s)) + tally (ran 1) (trace (rt s))
  /\ step (LGo 1) s
     = Some (mkSystem (pool s)
               (set_thread 1 (GWorker c 0 0 (WComplete 1))
                  (emit (EvRun 1) (set_world (job_run 1 (world (rt s))) (rt s)))))
  /\ (forall ls s', exec ls s = Some s' -> 2 <= tally (is_go 1) ls ->
      tally (ran 1) (trace (rt s')) = 1 /\ tally (completed 1) (trace (rt s')) = 1)
  /\ (exists ls s',
       exec ls s = Some s'
       /\ Forall (fun l => exists i, l = LGo i) ls
       /\ tally busy (threads (rt s')) = 0
       /\ forall j',
            tally (handed j') (trace (rt s')) = tally (handed j') (trace (rt s))
            /\ tally (handed j') (trace (rt s)) <= 1
            /\ tally (ran j') (trace (rt s')) = tally (handed j') (trace (rt s))
            /\ tally (completed j') (trace (rt s')) = tally (handed j') (trace (rt s))).
Proof.
  assert (threads (rt (one_worker_after
                         [LStart CtxBackground; LGo 0; LGo 0; LGo 0; LHandoff 0 1]
                         [1; 2] [])) !! 1
          = Some (GWorker (CtxCancel CtxBackground 0) 0 0 (WRun 1))) as Hi
    by reflexivity.
  destruct (C1_dispatched_job_runs_once 1 0 [1; 2] []
              (one_worker_after
                 [LStart CtxBackground; LGo 0; LGo 0; LGo 0; LHandoff 0 1] [1; 2] [])
              1)
    as (_ & Hh & _ & _ & _ & _ & Hrun & _ & Hfair & _ & Hdrain).
  - apply (bool_decide_unpack _). vm_compute. exact I.
  - exists [LStart CtxBackground; LGo 0; LGo 0; LGo 0; LHandoff 0 1].
    vm_compute. reflexivity.
  - split; [exact Hi|]. split; [reflexivity|]. split; [reflexivity|].
    split; [exact Hh|]. split; [exact (Hrun 1 _ 0 0 Hi)|].
    split; [|exact Hdrain].
    intros ls s' He Hn. exact (Hfair 1 _ 0 0 ls s' Hi He Hn).
Defined.
